(** * Recipe Finder orchestrator: session configuration and event translation

    A shallow embedding of [src/workflow/orchestrator.ts]:
    - [buildChromeDevToolsArgs], [CHROME_DEVTOOLS_MCP_CONFIG], [ALLOWED_TOOLS]
      and [getOptions], the configuration of one agent session;
    - [streamAgent], the async generator that turns the messages of the
      engine's stream into a sequence of normalized events.

    Modelling conventions.
    - [process.env] is a finite map from variable names to strings.  The
      module constant [CHROME_DEVTOOLS_MCP_CONFIG] reads it once, when the
      module is loaded; [getOptions] reads it again at each call.  The two
      snapshots are separate parameters ([load_env] and [env]).
    - A property that may be absent from a JavaScript object is an [option];
      [None] stands for [undefined].  Truthiness is written out for the two
      types the code tests: a string is truthy iff it is not empty, a number
      iff it is not zero; an object or an array is always truthy.
    - Token counters are integers ([Z]).
    - The async iterable returned by [query] is a finite trace of messages
      closed either by the end of the iteration or by a fault.  The async
      generator [streamAgent] is given twice: by the events it yields until
      it completes ([consume]) and as a resumable machine ([next]). *)

From Stdlib Require Import ZArith Sorted.
From stdpp Require Import gmap strings list sorting.

Local Open Scope Z_scope.
Local Open Scope string_scope.
Local Open Scope list_scope.

(** ** Chrome DevTools MCP server configuration *)

Abbreviation Env := (gmap string string).

Definition baseArgs : list string :=
  [ "-y"; "chrome-devtools-mcp@latest"; "--headless"; "--isolated";
    "--no-category-emulation"; "--no-category-performance";
    "--no-category-network" ].

(** The arguments the container branch puts after [baseArgs]. *)
Definition containerArgs : list string :=
  [ "--executable-path=/usr/bin/chromium"; "--chrome-arg=--no-sandbox";
    "--chrome-arg=--disable-setuid-sandbox";
    "--chrome-arg=--disable-dev-shm-usage"; "--chrome-arg=--disable-gpu" ].

(** [process.env.CHROME_PATH === "/usr/bin/chromium"]: an unset variable reads
    as [undefined], which is not strictly equal to any string. *)
Definition isContainer (env : Env) : bool :=
  match env !! "CHROME_PATH" with
  | Some v => String.eqb v "/usr/bin/chromium"
  | None => false
  end.

Definition buildChromeDevToolsArgs (env : Env) : list string :=
  if isContainer env then baseArgs ++ containerArgs else baseArgs.

Record McpServerConfig := {
  mcp_type : string;
  command : string;
  args : list string
}.

Definition CHROME_DEVTOOLS_MCP_CONFIG (load_env : Env) : McpServerConfig :=
  {| mcp_type := "stdio";
     command := "npx";
     args := buildChromeDevToolsArgs load_env |}.

Definition ALLOWED_TOOLS : list string :=
  [ "mcp__chrome-devtools__click";
    "mcp__chrome-devtools__fill";
    "mcp__chrome-devtools__fill_form";
    "mcp__chrome-devtools__hover";
    "mcp__chrome-devtools__press_key";
    "mcp__chrome-devtools__navigate_page";
    "mcp__chrome-devtools__new_page";
    "mcp__chrome-devtools__list_pages";
    "mcp__chrome-devtools__select_page";
    "mcp__chrome-devtools__close_page";
    "mcp__chrome-devtools__wait_for";
    "mcp__chrome-devtools__take_screenshot";
    "mcp__chrome-devtools__take_snapshot" ].

(** ** Session options *)

(** [mcpServers] is [None] when the object literal has no such property. *)
Record Options := {
  env : Env;
  systemPrompt : string;
  model : string;
  allowedTools : list string;
  maxTurns : Z;
  mcpServers : option (gmap string McpServerConfig)
}.

(** [SYSTEM_PROMPT] is the template literal of the module (the agent's
    instructions); no control flow depends on its text, so it is a parameter.
    The spread [...(standalone && { mcpServers: ... })] adds the property when
    [standalone] is true and nothing when it is false. *)
Definition getOptions (SYSTEM_PROMPT : string) (load_env env : Env)
    (standalone : bool) : Options :=
  {| env := env;
     systemPrompt := SYSTEM_PROMPT;
     model := "haiku";
     allowedTools := ALLOWED_TOOLS;
     maxTurns := 50;
     mcpServers :=
       if standalone
       then Some {[ "chrome-devtools" := CHROME_DEVTOOLS_MCP_CONFIG load_env ]}
       else None |}.

(** ** Messages of the engine and events of the adapter *)

(** A content block: [block.type], [block.text], [block.name]. *)
Record Block := {
  block_type : string;
  block_text : option string;
  block_name : option string
}.

(** [message.message.usage]. *)
Record Usage := {
  input_tokens : option Z;
  output_tokens : option Z
}.

(** [message.message]: an absent [content] or [usage] is [None]; a present
    [content] is an array of blocks, possibly empty. *)
Record ApiMessage := {
  content : option (list Block);
  usage : option Usage
}.

(** A message of the stream: [message.type], [message.message] and
    [message.result] ([None] when the key is not in the object). *)
Record RawMessage := {
  msg_type : string;
  message : option ApiMessage;
  result : option string
}.

(** The objects the generator yields, by their [type] tag.  A tool event
    carries [block.name] as it is, [None] when the block has no name. *)
Inductive Event :=
| EvText (text : string)
| EvTool (name : option string)
| EvUsage (input output : Z)
| EvResult (text : string)
| EvDone.

Global Instance Event_eq_dec : EqDecision Event.
Proof. solve_decision. Defined.

(** Truthiness of a string: every string but the empty one. *)
Definition truthy (s : string) : bool :=
  match s with
  | EmptyString => false
  | String _ _ => true
  end.

(** [v || 0] on a counter: an absent counter and a zero counter give 0. *)
Definition or_zero (v : option Z) : Z :=
  match v with
  | Some n => if Z.eqb n 0 then 0 else n
  | None => 0
  end.

(** [message.type === "assistant" && message.message?.content]: the block
    array when the guard holds, [None] when it does not. *)
Definition assistant_content (m : RawMessage) : option (list Block) :=
  if String.eqb (msg_type m) "assistant"
  then match message m with
       | Some inner => content inner
       | None => None
       end
  else None.

(** Body of the first loop: [block.type === "text" && block.text]. *)
Definition text_body (block : Block) : list Event :=
  if String.eqb (block_type block) "text"
  then match block_text block with
       | Some t => if truthy t then [EvText t] else []
       | None => []
       end
  else [].

(** Body of the second loop: [block.type === "tool_use"]. *)
Definition tool_body (block : Block) : list Event :=
  if String.eqb (block_type block) "tool_use"
  then [EvTool (block_name block)]
  else [].

(** The first [if] of the loop body, with its [for ... of] over the blocks. *)
Definition text_pass (m : RawMessage) : list Event :=
  match assistant_content m with
  | Some blocks => flat_map text_body blocks
  | None => []
  end.

(** The second [if], a second [for ... of] over the same blocks. *)
Definition tool_pass (m : RawMessage) : list Event :=
  match assistant_content m with
  | Some blocks => flat_map tool_body blocks
  | None => []
  end.

(** [message.message?.usage]: the snapshot, [None] when [message.message] or
    its [usage] is absent. *)
Definition message_usage (m : RawMessage) : option Usage :=
  match message m with
  | Some inner => usage inner
  | None => None
  end.

(** [if (message.message?.usage)], with [u] bound to the snapshot. *)
Definition usage_pass (m : RawMessage) : list Event :=
  match message_usage m with
  | Some u => [EvUsage (or_zero (input_tokens u)) (or_zero (output_tokens u))]
  | None => []
  end.

(** [if ("result" in message && message.result)]. *)
Definition result_pass (m : RawMessage) : list Event :=
  match result m with
  | Some r => if truthy r then [EvResult r] else []
  | None => []
  end.

(** One iteration of the [for await] loop: the events yielded for one
    message, in the order of the four [if] statements. *)
Definition on_message (m : RawMessage) : list Event :=
  text_pass m ++ tool_pass m ++ usage_pass m ++ result_pass m.

(** The events of the two block loops for a block array. *)
Definition content_events (blocks : list Block) : list Event :=
  flat_map text_body blocks ++ flat_map tool_body blocks.

(** *** The block loops with the origin of each event

    The same two loops, each event paired with the index of the block the
    loop variable was bound to when it was yielded. *)
Fixpoint traced_pass (body : Block -> list Event) (i : nat)
    (blocks : list Block) : list (nat * Event) :=
  match blocks with
  | [] => []
  | block :: rest => map (pair i) (body block) ++ traced_pass body (S i) rest
  end.

Definition traced_content_events (blocks : list Block) : list (nat * Event) :=
  traced_pass text_body 0 blocks ++ traced_pass tool_body 0 blocks.

(** *** Emission in block order, as the specification words it

    One scan of the block list: for each block the text check, then the
    tool-invocation check. *)
Definition block_order_events (blocks : list Block) : list Event :=
  flat_map (fun block => text_body block ++ tool_body block) blocks.

(** No block of type [tool_use] stands before a block that yields text. *)
Fixpoint text_before_tools (blocks : list Block) : bool :=
  match blocks with
  | [] => true
  | block :: rest =>
      match tool_body block with
      | [] => text_before_tools rest
      | _ :: _ =>
          forallb (fun b => match text_body b with [] => true | _ => false end) rest
          && text_before_tools rest
      end
  end.

(** ** The engine's stream and the generator *)

(** The async iterable returned by [query]: messages, then either the end of
    the iteration or a fault (a rejected [next], or an exception thrown by
    the call of [query] itself when there is no message before it). *)
Inductive Source (E : Type) : Type :=
| SrcEnd
| SrcFault (e : E)
| SrcMsg (m : RawMessage) (rest : Source E).
Arguments SrcEnd {E}.
Arguments SrcFault {E} e.
Arguments SrcMsg {E} m rest.

(** How the generator completes: it returns, or the fault leaves it. *)
Inductive Completion (E : Type) : Type :=
| Returned
| Threw (e : E).
Arguments Returned {E}.
Arguments Threw {E} e.

(** What [query] is called with. *)
Record QueryRequest := {
  prompt : string;
  options : Options
}.

(** A stream of the messages [ms] closed by [tail]. *)
Definition stream_of {E} (ms : list RawMessage) (tail : Source E) : Source E :=
  fold_right SrcMsg tail ms.

Section Generator.
Context {E : Type}.

(** The body of [streamAgent] over a stream: the events yielded until the
    generator completes, and how it completes.  There is no [try]: a fault
    of the stream leaves the loop and the function, skipping the last
    [yield]. *)
Fixpoint consume (src : Source E) : list Event * Completion E :=
  match src with
  | SrcEnd => ([EvDone], Returned)
  | SrcFault e => ([], Threw e)
  | SrcMsg m rest =>
      let '(evs, c) := consume rest in (on_message m ++ evs, c)
  end.

(** *** The generator as a resumable machine *)

(** Where the generator is suspended: inside the loop body with the yields
    still to come for the message in hand, at the last [yield], or
    completed.  [Running [] src] is also the state before the first call of
    [next], with [src] the stream that [query] returns when that call enters
    the body. *)
Inductive GenState : Type :=
| Running (pending : list Event) (src : Source E)
| YieldedDone
| Completed.

(** The outcome of one call of [next]: a value, completion, or rejection. *)
Inductive Step : Type :=
| Yield (ev : Event)
| Finish
| Raise (e : E).

(** Ask the stream for messages until one yields an event. *)
Fixpoint pull (src : Source E) : Step * GenState :=
  match src with
  | SrcEnd => (Yield EvDone, YieldedDone)
  | SrcFault e => (Raise e, Completed)
  | SrcMsg m rest =>
      match on_message m with
      | [] => pull rest
      | ev :: pending => (Yield ev, Running pending rest)
      end
  end.

Definition next (st : GenState) : Step * GenState :=
  match st with
  | Running (ev :: pending) src => (Yield ev, Running pending src)
  | Running [] src => pull src
  | YieldedDone => (Finish, Completed)
  | Completed => (Finish, Completed)
  end.

(** Call [next] up to [fuel] times, as [for await] does on the generator;
    the completion is [None] when the fuel runs out first. *)
Fixpoint drain (fuel : nat) (st : GenState)
    : list Event * option (Completion E) :=
  match fuel with
  | O => ([], None)
  | S fuel' =>
      match next st with
      | (Yield ev, st') =>
          let '(evs, c) := drain fuel' st' in (ev :: evs, c)
      | (Finish, _) => ([], Some Returned)
      | (Raise e, _) => ([], Some (Threw e))
      end
  end.

(** The outcome of the call of [next] that follows [n] earlier calls. *)
Fixpoint resume (n : nat) (st : GenState) : Step * GenState :=
  match n with
  | O => next st
  | S n' => resume n' (snd (next st))
  end.

(** The outcome of the call of [next] at which the generator completes. *)
Definition completion_step (c : Completion E) : Step :=
  match c with
  | Returned => Finish
  | Threw e => Raise e
  end.

(** *** [streamAgent] *)

Variable SYSTEM_PROMPT : string.
Variables load_env env : Env.
Variable query : QueryRequest -> Source E.

(** The argument of the call [query({ prompt, options: getOptions(true) })]. *)
Definition streamAgent_request (prompt : string) : QueryRequest :=
  {| prompt := prompt;
     options := getOptions SYSTEM_PROMPT load_env env true |}.

Definition streamAgent (prompt : string) : list Event * Completion E :=
  consume (query (streamAgent_request prompt)).

(** The generator object [streamAgent(prompt)] before its first [next]. *)
Definition streamAgent_start (prompt : string) : GenState :=
  Running [] (query (streamAgent_request prompt)).
End Generator.

(** ** Kinds of events *)

Definition is_text (ev : Event) : Prop := exists t, ev = EvText t.
Definition is_tool (ev : Event) : Prop := exists n, ev = EvTool n.

(** The position of an event's kind in the order of the four [if]
    statements of the loop body; the closing [done] comes last. *)
Definition event_rank (ev : Event) : nat :=
  match ev with
  | EvText _ => 0
  | EvTool _ => 1
  | EvUsage _ _ => 2
  | EvResult _ => 3
  | EvDone => 4
  end.

Definition is_usageb (ev : Event) : bool :=
  match ev with EvUsage _ _ => true | _ => false end.

Definition is_resultb (ev : Event) : bool :=
  match ev with EvResult _ => true | _ => false end.

(** The usage event of a message, if its [if] fires. *)
Definition usage_event_of (m : RawMessage) : option Event :=
  match message_usage m with
  | Some u => Some (EvUsage (or_zero (input_tokens u)) (or_zero (output_tokens u)))
  | None => None
  end.

(** The result event of a message, if its [if] fires. *)
Definition result_event_of (m : RawMessage) : option Event :=
  match result m with
  | Some r => if truthy r then Some (EvResult r) else None
  | None => None
  end.

(** ** Sample messages *)

Definition text_block (t : string) : Block :=
  {| block_type := "text"; block_text := Some t; block_name := None |}.

Definition tool_use_block (n : string) : Block :=
  {| block_type := "tool_use"; block_text := None; block_name := Some n |}.

(** An assistant turn with the given content blocks and usage snapshot. *)
Definition assistant_message (blocks : list Block) (u : option Usage)
    : RawMessage :=
  {| msg_type := "assistant";
     message := Some {| content := Some blocks; usage := u |};
     result := None |}.

(** The closing message of a session, with its [result] text. *)
Definition result_message (r : string) : RawMessage :=
  {| msg_type := "result"; message := None; result := Some r |}.

(** A message of a type the adapter does not know, with no payload. *)
Definition system_message : RawMessage :=
  {| msg_type := "system"; message := None; result := None |}.

(** A short session: an assistant turn, an unknown message, the result. *)
Definition sample_session : list RawMessage :=
  [ assistant_message [text_block "Hello"; tool_use_block "click"]
      (Some {| input_tokens := Some 10; output_tokens := Some 5 |});
    system_message;
    result_message "Found it" ].

(** * Properties *)

(** ** Launch arguments, allow-list and session options *)

Lemma isContainer_true (env : Env) :
  isContainer env = true <-> env !! "CHROME_PATH" = Some "/usr/bin/chromium".
Proof.
  unfold isContainer. destruct (env !! "CHROME_PATH") as [v|] eqn:Hv.
  - rewrite String.eqb_eq. split; [intros ->; reflexivity | congruence].
  - split; discriminate.
Qed.

Lemma isContainer_false (env : Env) :
  isContainer env = false <-> env !! "CHROME_PATH" <> Some "/usr/bin/chromium".
Proof.
  rewrite <- isContainer_true. destruct (isContainer env); split; congruence.
Qed.

(** C3. When [CHROME_PATH] is ["/usr/bin/chromium"] the arguments are the
    baseline arguments followed by exactly five more: the executable-path
    override and the four Chrome flags no-sandbox, disable-setuid-sandbox,
    disable-dev-shm-usage and disable-gpu.  In every other environment, an
    unset variable included, they are exactly the baseline arguments: the
    function has no failing branch. *)
Theorem buildChromeDevToolsArgs_branches (env : Env) :
  (env !! "CHROME_PATH" = Some "/usr/bin/chromium" ->
     buildChromeDevToolsArgs env =
       baseArgs ++
         [ "--executable-path=/usr/bin/chromium"; "--chrome-arg=--no-sandbox";
           "--chrome-arg=--disable-setuid-sandbox";
           "--chrome-arg=--disable-dev-shm-usage"; "--chrome-arg=--disable-gpu" ]
     /\ length (buildChromeDevToolsArgs env) = (length baseArgs + 5)%nat)
  /\ (env !! "CHROME_PATH" <> Some "/usr/bin/chromium" ->
        buildChromeDevToolsArgs env = baseArgs)
  /\ (env !! "CHROME_PATH" = None -> buildChromeDevToolsArgs env = baseArgs)
  /\ baseArgs =
       [ "-y"; "chrome-devtools-mcp@latest"; "--headless"; "--isolated";
         "--no-category-emulation"; "--no-category-performance";
         "--no-category-network" ].
Proof.
  unfold buildChromeDevToolsArgs. repeat split.
  - apply isContainer_true in H. rewrite H. reflexivity.
  - apply isContainer_true in H. rewrite H. reflexivity.
  - intros H. apply isContainer_false in H. rewrite H. reflexivity.
  - intros H. assert (Hf : isContainer env = false).
    { apply isContainer_false. rewrite H. discriminate. }
    rewrite Hf. reflexivity.
Qed.

Lemma buildChromeDevToolsArgs_branches_witness :
  buildChromeDevToolsArgs {[ "CHROME_PATH" := "/usr/bin/chromium" ]} =
    baseArgs ++ containerArgs
  /\ buildChromeDevToolsArgs {[ "CHROME_PATH" := "/opt/chrome" ]} = baseArgs
  /\ buildChromeDevToolsArgs ∅ = baseArgs.
Proof.
  split; [|split].
  - apply (proj1 (buildChromeDevToolsArgs_branches
                    {[ "CHROME_PATH" := "/usr/bin/chromium" ]})).
    vm_compute. reflexivity.
  - apply (proj1 (proj2 (buildChromeDevToolsArgs_branches
                           {[ "CHROME_PATH" := "/opt/chrome" ]}))).
    vm_compute. discriminate.
  - apply (proj1 (proj2 (proj2 (buildChromeDevToolsArgs_branches ∅)))).
    vm_compute. reflexivity.
Defined.

(** C5. [ALLOWED_TOOLS] is a constant list of 13 pairwise distinct
    identifiers, the 13 chrome-devtools tool names behind the server prefix;
    it takes no input, and [getOptions] attaches the same list whatever the
    environment and the mode. *)
Theorem ALLOWED_TOOLS_fixed :
  ALLOWED_TOOLS =
    map (String.append "mcp__chrome-devtools__")
      [ "click"; "fill"; "fill_form"; "hover"; "press_key"; "navigate_page";
        "new_page"; "list_pages"; "select_page"; "close_page"; "wait_for";
        "take_screenshot"; "take_snapshot" ]
  /\ length ALLOWED_TOOLS = 13%nat
  /\ NoDup ALLOWED_TOOLS
  /\ (forall sp load_env env standalone,
        allowedTools (getOptions sp load_env env standalone) = ALLOWED_TOOLS).
Proof.
  split; [reflexivity|]. split; [reflexivity|]. split; [|reflexivity].
  apply (bool_decide_unpack _). vm_compute. reflexivity.
Qed.

(** C6. The request [streamAgent] passes to [query] carries the prompt and
    the options of [getOptions(true)]: the launch specification of the
    automation subprocess under the key ["chrome-devtools"], the allow-list,
    50 turns at most (a positive bound) and the model ["haiku"].
    [getOptions(false)] has no [mcpServers] property. *)
Theorem streamAgent_options_standalone {E : Type} (sp : string)
    (load_env env : Env) (query : QueryRequest -> Source E) (p : string) :
  let req := streamAgent_request sp load_env env p in
  streamAgent sp load_env env query p = consume (query req)
  /\ prompt req = p
  /\ options req = getOptions sp load_env env true
  /\ mcpServers (options req) =
       Some {[ "chrome-devtools" :=
                 {| mcp_type := "stdio"; command := "npx";
                    args := buildChromeDevToolsArgs load_env |} ]}
  /\ (mcpServers (options req) ≫= (fun servers => servers !! "chrome-devtools")) =
       Some (CHROME_DEVTOOLS_MCP_CONFIG load_env)
  /\ allowedTools (options req) = ALLOWED_TOOLS
  /\ maxTurns (options req) = 50 /\ 0 < maxTurns (options req)
  /\ model (options req) = "haiku"
  /\ mcpServers (getOptions sp load_env env false) = None
  /\ 0 < maxTurns (getOptions sp load_env env false).
Proof.
  cbn. repeat split.
Qed.

(** ** The events of one message *)

Lemma text_body_cases (b : Block) :
  text_body b = []
  \/ exists t, text_body b = [EvText t]
       /\ block_type b = "text" /\ block_text b = Some t /\ t <> "".
Proof.
  unfold text_body. destruct (String.eqb (block_type b) "text") eqn:Ht; [|by left].
  destruct (block_text b) as [t|]; [|by left].
  destruct t as [|a t]; [by left|]. right. exists (String a t).
  apply String.eqb_eq in Ht. by repeat split.
Qed.

Lemma tool_body_cases (b : Block) :
  tool_body b = []
  \/ tool_body b = [EvTool (block_name b)] /\ block_type b = "tool_use".
Proof.
  unfold tool_body. destruct (String.eqb (block_type b) "tool_use") eqn:Ht; [|by left].
  right. apply String.eqb_eq in Ht. by split.
Qed.

(** A block has one [type]: it cannot pass both checks. *)
Lemma tool_body_excludes_text (b : Block) :
  tool_body b <> [] -> text_body b = [].
Proof.
  intros Hn. destruct (tool_body_cases b) as [H|[_ Ht]]; [done|].
  unfold text_body. rewrite Ht. reflexivity.
Qed.

Lemma text_pass_all_text (blocks : list Block) :
  Forall is_text (flat_map text_body blocks).
Proof.
  induction blocks as [|b rest IH]; cbn; [constructor|].
  apply Forall_app. split; [|exact IH].
  destruct (text_body_cases b) as [->|(t & -> & _)]; [constructor|].
  repeat constructor. by exists t.
Qed.

Lemma tool_pass_all_tool (blocks : list Block) :
  Forall is_tool (flat_map tool_body blocks).
Proof.
  induction blocks as [|b rest IH]; cbn; [constructor|].
  apply Forall_app. split; [|exact IH].
  destruct (tool_body_cases b) as [->|[-> _]]; [constructor|].
  repeat constructor. by exists (block_name b).
Qed.

Lemma text_pass_spec (m : RawMessage) : Forall is_text (text_pass m).
Proof.
  unfold text_pass. destruct (assistant_content m); [apply text_pass_all_text|constructor].
Qed.

Lemma tool_pass_spec (m : RawMessage) : Forall is_tool (tool_pass m).
Proof.
  unfold tool_pass. destruct (assistant_content m); [apply tool_pass_all_tool|constructor].
Qed.

Lemma usage_pass_cases (m : RawMessage) :
  usage_pass m = [] \/ exists i o, usage_pass m = [EvUsage i o].
Proof.
  unfold usage_pass. destruct (message_usage m) as [u|]; [|by left].
  right. eauto.
Qed.

Lemma result_pass_cases (m : RawMessage) :
  result_pass m = [] /\ (result m = None \/ result m = Some "")
  \/ exists r, result_pass m = [EvResult r] /\ result m = Some r /\ r <> "".
Proof.
  unfold result_pass. destruct (result m) as [r|]; [|left; auto].
  destruct r as [|a r]; [left; auto|]. right. exists (String a r). by repeat split.
Qed.

(** [v || 0] is the counter, 0 standing in for an absent one. *)
Lemma or_zero_default (v : option Z) : or_zero v = default 0 v.
Proof.
  destruct v as [n|]; cbn; [|reflexivity].
  destruct (Z.eqb_spec n 0) as [->|]; reflexivity.
Qed.

(** Membership in the events of a message, pass by pass. *)
Lemma in_on_message (ev : Event) (m : RawMessage) :
  In ev (on_message m) <->
  In ev (text_pass m) \/ In ev (tool_pass m) \/ In ev (usage_pass m)
  \/ In ev (result_pass m).
Proof. unfold on_message. rewrite !in_app_iff. tauto. Qed.

Lemma Forall_In_elim {A} (P : A -> Prop) (l : list A) (x : A) :
  Forall P l -> In x l -> P x.
Proof. intros H Hin. rewrite Forall_forall in H. apply H. by apply list_elem_of_In. Qed.

(** The last [yield] is the only one with the tag [done]. *)
Lemma on_message_no_done (m : RawMessage) : ~ In EvDone (on_message m).
Proof.
  rewrite in_on_message. intros [H|[H|[H|H]]].
  - destruct (Forall_In_elim _ _ _ (text_pass_spec m) H) as [t Ht]. discriminate.
  - destruct (Forall_In_elim _ _ _ (tool_pass_spec m) H) as [n Hn]. discriminate.
  - destruct (usage_pass_cases m) as [Hu|(i & o & Hu)]; rewrite Hu in H; cbn in H;
      [done|]. destruct H as [H|[]]. discriminate.
  - destruct (result_pass_cases m) as [[Hr _]|(r & Hr & _)]; rewrite Hr in H;
      cbn in H; [done|]. destruct H as [H|[]]. discriminate.
Qed.

Lemma flat_map_on_message_no_done (ms : list RawMessage) :
  ~ In EvDone (flat_map on_message ms).
Proof.
  rewrite in_flat_map. intros (m & _ & H). exact (on_message_no_done m H).
Qed.

(** ** The generator over a whole stream *)

Section GeneratorFacts.
Context {E : Type}.
Implicit Types (src : Source E) (p : list Event) (ms : list RawMessage).

Lemma consume_stream_of ms (tail : Source E) :
  consume (stream_of ms tail) =
    (flat_map on_message ms ++ fst (consume tail), snd (consume tail)).
Proof.
  induction ms as [|m ms IH]; cbn.
  - by destruct (consume tail).
  - fold (stream_of ms tail). rewrite IH. by rewrite app_assoc.
Qed.

(** Every stream is a list of messages closed by the end or by a fault. *)
Lemma source_shape src :
  exists ms, src = stream_of ms SrcEnd \/ exists e, src = stream_of ms (SrcFault e).
Proof.
  induction src as [|e|m rest [ms [->| [e ->]]]].
  - exists []. by left.
  - exists []. right. by exists e.
  - exists (m :: ms). by left.
  - exists (m :: ms). right. by exists e.
Qed.

(** A message in hand is the same as its events pending. *)
Lemma next_message (m : RawMessage) src :
  next (Running [] (SrcMsg m src)) = next (Running (on_message m) src).
Proof. cbn. by destruct (on_message m). Qed.

Lemma drain_same_next (fuel : nat) (st st' : GenState (E:=E)) :
  next st = next st' -> drain fuel st = drain fuel st'.
Proof. intros H. destruct fuel; cbn; [done|]. by rewrite H. Qed.

Lemma resume_same_next (n : nat) (st st' : GenState (E:=E)) :
  next st = next st' -> resume n st = resume n st'.
Proof. intros H. destruct n; cbn; by rewrite H. Qed.

(** With fuel for every yield and for the completing call, draining the
    machine gives what [consume] gives; more fuel changes nothing. *)
Lemma drain_consume src : forall p (fuel : nat),
  (length p + length (fst (consume src)) < fuel)%nat ->
  drain fuel (Running p src) =
    (p ++ fst (consume src), Some (snd (consume src))).
Proof.
  induction src as [|e|m rest IH]; intros p; induction p as [|ev p IHp];
    intros fuel Hf.
  - destruct fuel as [|[|fuel]]; cbn in *; [lia..|done].
  - destruct fuel as [|fuel]; cbn in Hf; [lia|].
    cbn [drain next]. rewrite IHp by (cbn in *; lia). done.
  - destruct fuel as [|fuel]; cbn in *; [lia|done].
  - destruct fuel as [|fuel]; cbn in Hf; [lia|].
    cbn [drain next]. rewrite IHp by (cbn in *; lia). done.
  - rewrite (drain_same_next _ _ _ (next_message m rest)).
    cbn [consume] in *. destruct (consume rest) as [evs c] eqn:Hc.
    cbn [fst snd] in *. rewrite length_app in Hf.
    rewrite IH by lia. by rewrite app_assoc.
  - destruct fuel as [|fuel]; cbn in Hf; [lia|].
    cbn [drain next]. rewrite IHp by (cbn in *; lia). done.
Qed.

Lemma resume_Completed (n : nat) : resume n (@Completed E) = (Finish, Completed).
Proof. induction n; cbn; done. Qed.

Lemma resume_YieldedDone (n : nat) :
  resume n (@YieldedDone E) = (Finish, Completed).
Proof. destruct n; cbn; [done|apply resume_Completed]. Qed.

(** The call of [next] that follows the last yield completes the generator
    the way [consume] says, and every later call finds it completed. *)
Lemma resume_consume src : forall p,
  resume (length p + length (fst (consume src))) (Running p src) =
    (completion_step (snd (consume src)), Completed)
  /\ forall n : nat, (length p + length (fst (consume src)) < n)%nat ->
       resume n (Running p src) = (Finish, Completed).
Proof.
  induction src as [|e|m rest IH]; intros p; induction p as [|ev p IHp].
  - split; [done|]. intros [|[|n]] Hn; cbn in *; [lia..|apply resume_Completed].
  - destruct IHp as [H1 H2]. split; [exact H1|].
    intros [|n] Hn; cbn in Hn; [lia|]. cbn [resume next snd]. apply H2. cbn in *. lia.
  - split; [done|]. intros [|n] Hn; cbn in *; [lia|apply resume_Completed].
  - destruct IHp as [H1 H2]. split; [exact H1|].
    intros [|n] Hn; cbn in Hn; [lia|]. cbn [resume next snd]. apply H2. cbn in *. lia.
  - destruct (IH (on_message m)) as [H1 H2].
    cbn [consume]. destruct (consume rest) as [evs c] eqn:Hc. cbn [fst snd] in *.
    rewrite length_app. cbn [length Nat.add]. split.
    + rewrite (resume_same_next _ _ _ (next_message m rest)). exact H1.
    + intros n Hn. rewrite (resume_same_next _ _ _ (next_message m rest)).
      apply H2. exact Hn.
  - destruct IHp as [H1 H2]. split; [exact H1|].
    intros [|n] Hn; cbn in Hn; [lia|]. cbn [resume next snd]. apply H2. cbn in *. lia.
Qed.

(** The call of [next] number [i] yields the event number [i]. *)
Lemma resume_yields src : forall p (i : nat) (ev : Event),
  (p ++ fst (consume src)) !! i = Some ev ->
  fst (resume i (Running p src)) = Yield ev.
Proof.
  induction src as [|e|m rest IH]; intros p; induction p as [|ev0 p IHp];
    intros i ev Hi.
  - destruct i as [|i]; cbn in *; [by inversion Hi|done].
  - destruct i as [|i]; cbn in Hi; [by inversion Hi|].
    cbn [resume next snd]. by apply IHp.
  - done.
  - destruct i as [|i]; cbn in Hi; [by inversion Hi|].
    cbn [resume next snd]. by apply IHp.
  - rewrite (resume_same_next _ _ _ (next_message m rest)). apply IH.
    cbn [consume] in Hi. destruct (consume rest) as [evs c]. exact Hi.
  - destruct i as [|i]; cbn in Hi; [by inversion Hi|].
    cbn [resume next snd]. by apply IHp.
Qed.
End GeneratorFacts.

(** ** Completion of [streamAgent] *)

(** C1. When the stream [query] returns delivers the messages [ms] and then
    ends, [streamAgent] yields the events of the messages followed by one
    [EvDone] and returns: [EvDone] occurs once, at the last position, also
    when there is no message at all.  On the generator object: enough calls
    of [next] produce exactly these events, the call after the last message's
    events yields [EvDone], and every later call reports completion. *)
Theorem streamAgent_ends_with_one_done {E : Type} (sp : string)
    (load_env env : Env) (query : QueryRequest -> Source E) (pr : string)
    (ms : list RawMessage) :
  query (streamAgent_request sp load_env env pr) = stream_of ms SrcEnd ->
  let body := flat_map on_message ms in
  let run := streamAgent sp load_env env query pr in
  let gen := streamAgent_start sp load_env env query pr in
  run = (body ++ [EvDone], Returned)
  /\ ~ In EvDone body
  /\ count_occ Event_eq_dec (fst run) EvDone = 1%nat
  /\ (forall i : nat, fst run !! i = Some EvDone -> i = length body)
  /\ (ms = [] -> run = ([EvDone], Returned))
  /\ (forall fuel : nat, (length (fst run) < fuel)%nat ->
        drain fuel gen = (fst run, Some Returned))
  /\ fst (resume (length body) gen) = Yield EvDone
  /\ (forall n : nat, (length body < n)%nat -> resume n gen = (Finish, Completed)).
Proof.
  intros Hq body run gen.
  assert (Hc : consume (query (streamAgent_request sp load_env env pr)) =
               (body ++ [EvDone], Returned)).
  { rewrite Hq, consume_stream_of. reflexivity. }
  assert (Hrun : run = (body ++ [EvDone], Returned)) by exact Hc.
  pose proof (flat_map_on_message_no_done ms) as Hnd. fold body in Hnd.
  split; [exact Hrun|]. split; [exact Hnd|]. rewrite Hrun. cbn [fst].
  split; [|split; [|split; [|split; [|split]]]].
  - rewrite count_occ_app, (proj1 (count_occ_not_In Event_eq_dec body EvDone) Hnd).
    cbn. by destruct (Event_eq_dec EvDone EvDone).
  - intros i Hi. destruct (decide (i < length body)%nat) as [Hlt|Hge].
    + rewrite lookup_app_l in Hi by exact Hlt. exfalso. apply Hnd.
      apply list_elem_of_In. by eapply list_elem_of_lookup_2.
    + apply lookup_lt_Some in Hi. rewrite length_app in Hi. cbn in Hi. lia.
  - intros ->. reflexivity.
  - intros fuel Hf. unfold gen, streamAgent_start.
    rewrite drain_consume; rewrite Hc; cbn [fst snd app]; [reflexivity|].
    cbn [length Nat.add]. exact Hf.
  - unfold gen, streamAgent_start. apply resume_yields. rewrite Hc. cbn [fst app].
    rewrite lookup_app_r by lia. by rewrite Nat.sub_diag.
  - intros n Hn. unfold gen, streamAgent_start.
    destruct (resume_consume (query (streamAgent_request sp load_env env pr)) [])
      as [H1 H2].
    rewrite Hc in H1, H2. cbn [fst snd length Nat.add completion_step] in H1, H2.
    rewrite length_app in H1, H2. cbn [length] in H1, H2.
    destruct (decide (n = length body + 1)%nat) as [->|Hne]; [exact H1|].
    apply H2. lia.
Qed.

Lemma streamAgent_ends_with_one_done_witness :
  streamAgent (E:=unit) "" ∅ ∅ (fun _ => stream_of sample_session SrcEnd)
    "lasagna"
  = ([EvText "Hello"; EvTool (Some "click"); EvUsage 10 5;
      EvResult "Found it"; EvDone], Returned).
Proof.
  exact (proj1 (streamAgent_ends_with_one_done (E:=unit) "" ∅ ∅
                  (fun _ => stream_of sample_session SrcEnd) "lasagna"
                  sample_session eq_refl)).
Defined.

(** C4. When the stream delivers the messages [ms] and then raises the fault
    [e], [streamAgent] yields the events of [ms] and nothing more, no
    [EvDone] among them, and completes by throwing the same [e].  On the
    generator object: the call of [next] after the last of these events is
    rejected with [e]; no handler, no second call of [query]. *)
Theorem streamAgent_fault_propagates {E : Type} (sp : string)
    (load_env env : Env) (query : QueryRequest -> Source E) (pr : string)
    (ms : list RawMessage) (e : E) :
  query (streamAgent_request sp load_env env pr) = stream_of ms (SrcFault e) ->
  let prefix := flat_map on_message ms in
  let gen := streamAgent_start sp load_env env query pr in
  streamAgent sp load_env env query pr = (prefix, Threw e)
  /\ ~ In EvDone prefix
  /\ (forall fuel : nat, (length prefix < fuel)%nat ->
        drain fuel gen = (prefix, Some (Threw e)))
  /\ (forall (i : nat) (ev : Event), prefix !! i = Some ev ->
        fst (resume i gen) = Yield ev)
  /\ resume (length prefix) gen = (Raise e, Completed).
Proof.
  intros Hq prefix gen.
  assert (Hc : consume (query (streamAgent_request sp load_env env pr)) =
               (prefix, Threw e)).
  { rewrite Hq, consume_stream_of. cbn. by rewrite app_nil_r. }
  split; [exact Hc|]. split; [apply flat_map_on_message_no_done|].
  unfold gen, streamAgent_start. split; [|split].
  - intros fuel Hf. rewrite drain_consume; rewrite Hc; cbn [fst snd app];
      [reflexivity|exact Hf].
  - intros i ev Hi. apply resume_yields. rewrite Hc. exact Hi.
  - destruct (resume_consume (query (streamAgent_request sp load_env env pr)) [])
      as [H1 _].
    rewrite Hc in H1. exact H1.
Qed.

Lemma streamAgent_fault_propagates_witness :
  streamAgent "" ∅ ∅
    (fun _ => stream_of [assistant_message [text_block "partial"] None]
                (SrcFault "ECONNRESET"))
    "lasagna"
  = ([EvText "partial"], Threw "ECONNRESET").
Proof.
  exact (proj1 (streamAgent_fault_propagates "" ∅ ∅
                  (fun _ => stream_of [assistant_message [text_block "partial"] None]
                              (SrcFault "ECONNRESET"))
                  "lasagna" [assistant_message [text_block "partial"] None]
                  "ECONNRESET" eq_refl)).
Defined.

(** ** Usage, result and unrecognized messages *)

Lemma leading_passes_no_usage (m : RawMessage) (i o : Z) :
  ~ In (EvUsage i o) (text_pass m ++ tool_pass m ++ result_pass m).
Proof.
  rewrite !in_app_iff. intros [H|[H|H]].
  - destruct (Forall_In_elim _ _ _ (text_pass_spec m) H) as [t Ht]. discriminate.
  - destruct (Forall_In_elim _ _ _ (tool_pass_spec m) H) as [n Hn]. discriminate.
  - destruct (result_pass_cases m) as [[Hr _]|(r & Hr & _)]; rewrite Hr in H;
      cbn in H; [done|]. destruct H as [H|[]]. discriminate.
Qed.

(** The guard of the usage check, on the fields of the message: it finds a
    snapshot exactly when [message.message] is present and has a [usage]. *)
Lemma message_usage_Some (m : RawMessage) (u : Usage) :
  message_usage m = Some u <->
  exists inner, message m = Some inner /\ usage inner = Some u.
Proof.
  unfold message_usage. destruct (message m) as [inner|].
  - split; [intros H; by exists inner|]. intros (inner' & Hi & Hu).
    by inversion Hi; subst.
  - split; [done|]. by intros (inner' & Hi & _).
Qed.

Lemma message_usage_None (m : RawMessage) :
  message_usage m = None <->
  forall inner, message m = Some inner -> usage inner = None.
Proof.
  unfold message_usage. destruct (message m) as [inner|].
  - split; [intros H inner' Hi; by inversion Hi; subst|]. intros H. by apply H.
  - by split.
Qed.

(** C7. A message whose [message.message] is present and carries a [usage]
    snapshot, whatever its type and whether or not it has a [result] key,
    yields one usage event with the snapshot's two counters, 0 for an absent
    one (so an empty snapshot gives [EvUsage 0 0]); the event comes after the
    content-block events of the same message and before its result event,
    and it is the message's only usage event.  With no content block and no
    result text it is the only event of the message. *)
Theorem usage_event_emitted (m : RawMessage) (inner : ApiMessage) (u : Usage) :
  message m = Some inner ->
  usage inner = Some u ->
  let ev := EvUsage (default 0 (input_tokens u)) (default 0 (output_tokens u)) in
  usage_pass m = [ev]
  /\ on_message m = text_pass m ++ tool_pass m ++ [ev] ++ result_pass m
  /\ In ev (on_message m)
  /\ (forall i o : Z,
        ~ In (EvUsage i o) (text_pass m ++ tool_pass m ++ result_pass m))
  /\ (forall i o : Z, In (EvUsage i o) (on_message m) -> EvUsage i o = ev)
  /\ ((assistant_content m = None \/ assistant_content m = Some []) ->
      (result m = None \/ result m = Some "") ->
      on_message m = [ev]).
Proof.
  intros Hi Hu ev.
  assert (Hg : message_usage m = Some u).
  { apply message_usage_Some. by exists inner. }
  assert (Hp : usage_pass m = [ev]).
  { unfold usage_pass. rewrite Hg, !or_zero_default. reflexivity. }
  assert (Hm : on_message m = text_pass m ++ tool_pass m ++ [ev] ++ result_pass m).
  { unfold on_message. by rewrite Hp. }
  split; [exact Hp|]. split; [exact Hm|].
  split; [rewrite Hm, !in_app_iff; right; right; left; by left|].
  split; [intros i o; apply leading_passes_no_usage|]. split.
  - intros i o Hin. rewrite Hm, !in_app_iff in Hin.
    destruct Hin as [H|[H|[H|H]]].
    + exfalso. apply (leading_passes_no_usage m i o). rewrite !in_app_iff. auto.
    + exfalso. apply (leading_passes_no_usage m i o). rewrite !in_app_iff. auto.
    + by destruct H as [<-|[]].
    + exfalso. apply (leading_passes_no_usage m i o). rewrite !in_app_iff. auto.
  - intros Hc Hr. unfold on_message, text_pass, tool_pass, result_pass.
    rewrite Hp. by destruct Hc as [-> | ->], Hr as [-> | ->].
Qed.

Lemma usage_event_emitted_witness :
  on_message {| msg_type := "assistant";
                message := Some {| content := None;
                                   usage := Some {| input_tokens := Some 10;
                                                    output_tokens := Some 5 |} |};
                result := None |}
  = [EvUsage 10 5]
  /\ on_message {| msg_type := "result";
                   message := Some {| content := None;
                                      usage := Some {| input_tokens := None;
                                                       output_tokens := Some 9 |} |};
                   result := Some "r2" |}
     = [EvUsage 0 9; EvResult "r2"]
  /\ on_message {| msg_type := "assistant";
                   message := Some {| content := None;
                                      usage := Some {| input_tokens := None;
                                                       output_tokens := None |} |};
                   result := None |}
     = [EvUsage 0 0].
Proof.
  split; [|split].
  - refine (proj2 (proj2 (proj2 (proj2 (proj2
              (usage_event_emitted
                 {| msg_type := "assistant";
                    message := Some {| content := None;
                                       usage := Some {| input_tokens := Some 10;
                                                        output_tokens := Some 5 |} |};
                    result := None |}
                 {| content := None;
                    usage := Some {| input_tokens := Some 10;
                                     output_tokens := Some 5 |} |}
                 {| input_tokens := Some 10; output_tokens := Some 5 |}
                 eq_refl eq_refl))))) _ _).
    + left. reflexivity.
    + left. reflexivity.
  - exact (proj1 (proj2
              (usage_event_emitted
                 {| msg_type := "result";
                    message := Some {| content := None;
                                       usage := Some {| input_tokens := None;
                                                        output_tokens := Some 9 |} |};
                    result := Some "r2" |}
                 {| content := None;
                    usage := Some {| input_tokens := None;
                                     output_tokens := Some 9 |} |}
                 {| input_tokens := None; output_tokens := Some 9 |}
                 eq_refl eq_refl))).
  - refine (proj2 (proj2 (proj2 (proj2 (proj2
              (usage_event_emitted
                 {| msg_type := "assistant";
                    message := Some {| content := None;
                                       usage := Some {| input_tokens := None;
                                                        output_tokens := None |} |};
                    result := None |}
                 {| content := None;
                    usage := Some {| input_tokens := None;
                                     output_tokens := None |} |}
                 {| input_tokens := None; output_tokens := None |}
                 eq_refl eq_refl))))) _ _).
    + left. reflexivity.
    + left. reflexivity.
Defined.

(** C8. A message with no assistant content blocks, no usage snapshot and no
    non-empty result yields no event and raises nothing: the generator goes
    on with the rest of the stream as if the message were not there. *)
Theorem unrecognized_message_skipped {E : Type} (m : RawMessage)
    (rest : Source E) :
  (assistant_content m = None \/ assistant_content m = Some []) ->
  message_usage m = None ->
  (result m = None \/ result m = Some "") ->
  on_message m = []
  /\ consume (SrcMsg m rest) = consume rest
  /\ next (Running [] (SrcMsg m rest)) = next (Running [] rest)
  /\ (forall (before : list RawMessage),
        consume (stream_of (before ++ [m]) rest) = consume (stream_of before rest)).
Proof.
  intros Hc Hu Hr.
  assert (H0 : on_message m = []).
  { unfold on_message, text_pass, tool_pass, usage_pass, result_pass.
    rewrite Hu. by destruct Hc as [-> | ->], Hr as [-> | ->]. }
  split; [exact H0|]. split; [|split].
  - cbn. rewrite H0. by destruct (consume rest).
  - rewrite next_message, H0. reflexivity.
  - intros before. rewrite !consume_stream_of.
    rewrite flat_map_app. cbn. rewrite H0. cbn. by rewrite !app_nil_r.
Qed.

Lemma unrecognized_message_skipped_witness :
  on_message system_message = []
  /\ consume (E:=unit)
       (stream_of [system_message; assistant_message [text_block "Hello"] None]
          SrcEnd)
     = ([EvText "Hello"; EvDone], Returned).
Proof.
  pose proof (unrecognized_message_skipped (E:=unit) system_message
                (stream_of [assistant_message [text_block "Hello"] None] SrcEnd)
                (or_introl eq_refl) eq_refl (or_introl eq_refl)) as H.
  split.
  - exact (proj1 H).
  - exact (proj1 (proj2 H)).
Defined.

(** C9. The events of a message include [EvResult t] exactly when its
    [result] field holds the non-empty string [t]; the event is then the last
    one of the message.  An empty or absent [result] gives no result event. *)
Theorem result_event_iff_nonempty (m : RawMessage) (t : string) :
  (In (EvResult t) (on_message m) <-> result m = Some t /\ t <> "")
  /\ (result m = Some t -> t <> "" ->
      on_message m = text_pass m ++ tool_pass m ++ usage_pass m ++ [EvResult t])
  /\ (result m = Some "" \/ result m = None ->
      forall r : string, ~ In (EvResult r) (on_message m)).
Proof.
  assert (Hin : forall r, In (EvResult r) (on_message m) <->
                          result m = Some r /\ r <> "").
  { intros r. rewrite in_on_message. split.
    - intros [H|[H|[H|H]]].
      + destruct (Forall_In_elim _ _ _ (text_pass_spec m) H) as [x Hx]. discriminate.
      + destruct (Forall_In_elim _ _ _ (tool_pass_spec m) H) as [x Hx]. discriminate.
      + destruct (usage_pass_cases m) as [Hu|(i & o & Hu)]; rewrite Hu in H;
          cbn in H; [done|]. destruct H as [H|[]]. discriminate.
      + destruct (result_pass_cases m) as [[Hr _]|(r' & Hr & Hs & Hne)];
          rewrite Hr in H; cbn in H; [done|]. destruct H as [H|[]].
        inversion H; subst. by split.
    - intros [Hr Hne]. right; right; right. unfold result_pass. rewrite Hr.
      destruct r; [done|]. cbn. by left. }
  split; [apply Hin|]. split.
  - intros Hr Hne. unfold on_message, result_pass. rewrite Hr.
    destruct t; [done|]. reflexivity.
  - intros Hr r Hev. apply Hin in Hev as [Hs Hne].
    destruct Hr as [Hr|Hr]; rewrite Hr in Hs; [|discriminate].
    inversion Hs; subst. done.
Qed.

Lemma result_event_iff_nonempty_witness :
  In (EvResult "Found it") (on_message (result_message "Found it"))
  /\ ~ In (EvResult "") (on_message (result_message "")).
Proof.
  split.
  - apply (proj1 (result_event_iff_nonempty (result_message "Found it") "Found it")).
    split; [reflexivity|discriminate].
  - apply (proj2 (proj2 (result_event_iff_nonempty (result_message "") ""))).
    left. reflexivity.
Defined.

(** ** Order of the content-block events *)

Section TracedPass.
Variable body : Block -> list Event.

(** Forgetting the origins gives back the events of the loop. *)
Lemma traced_pass_events (blocks : list Block) : forall i : nat,
  map snd (traced_pass body i blocks) = flat_map body blocks.
Proof.
  induction blocks as [|b rest IH]; intros i; cbn; [reflexivity|].
  rewrite map_app, map_map, IH. cbn. by rewrite map_id.
Qed.

(** Each traced event was yielded by the loop body on the block at its
    index. *)
Lemma traced_pass_origin (blocks : list Block) : forall (i j : nat) (ev : Event),
  In (j, ev) (traced_pass body i blocks) ->
  (i <= j)%nat /\ exists b, blocks !! (j - i)%nat = Some b /\ In ev (body b).
Proof.
  induction blocks as [|b rest IH]; intros i j ev Hin; cbn in Hin; [done|].
  apply in_app_iff in Hin as [Hin|Hin].
  - apply in_map_iff in Hin as (ev' & Heq & Hev). inversion Heq; subst.
    split; [lia|]. exists b. rewrite Nat.sub_diag. by split.
  - apply IH in Hin as (Hle & b' & Hb & Hev). split; [lia|]. exists b'.
    replace (j - i)%nat with (S (j - S i)) by lia. by split.
Qed.

Lemma traced_pass_lower (blocks : list Block) : forall i : nat,
  Forall (fun j => (i <= j)%nat) (map fst (traced_pass body i blocks)).
Proof.
  intros i. apply Forall_forall. intros j Hj. apply list_elem_of_In in Hj.
  apply in_map_iff in Hj as ([j' ev] & <- & Hin).
  by apply traced_pass_origin in Hin as [Hle _].
Qed.

(** A loop whose body yields at most once per block yields in the order
    of the blocks. *)
Lemma traced_pass_sorted (blocks : list Block) :
  (forall b, (length (body b) <= 1)%nat) ->
  forall i : nat, StronglySorted lt (map fst (traced_pass body i blocks)).
Proof.
  intros Hone. induction blocks as [|b rest IH]; intros i; cbn; [constructor|].
  rewrite map_app, map_map. cbn. specialize (Hone b).
  destruct (body b) as [|ev [|ev' tl]]; cbn in *; [apply IH| |lia].
  constructor; [apply IH|].
  eapply Forall_impl; [apply (traced_pass_lower rest (S i))|].
  cbn. intros j Hj. lia.
Qed.
End TracedPass.

Lemma text_body_length (b : Block) : (length (text_body b) <= 1)%nat.
Proof. destruct (text_body_cases b) as [->|(t & -> & _)]; cbn; lia. Qed.

Lemma tool_body_length (b : Block) : (length (tool_body b) <= 1)%nat.
Proof. destruct (tool_body_cases b) as [->|[-> _]]; cbn; lia. Qed.

Lemma on_message_assistant (m : RawMessage) (blocks : list Block) :
  assistant_content m = Some blocks ->
  on_message m =
    flat_map text_body blocks ++ flat_map tool_body blocks
      ++ usage_pass m ++ result_pass m.
Proof. intros H. unfold on_message, text_pass, tool_pass. by rewrite H. Qed.

Lemma after_text_pass_no_text (m : RawMessage) (t : string) :
  ~ In (EvText t) (tool_pass m ++ usage_pass m ++ result_pass m).
Proof.
  rewrite !in_app_iff. intros [H|[H|H]].
  - destruct (Forall_In_elim _ _ _ (tool_pass_spec m) H) as [n Hn]. discriminate.
  - destruct (usage_pass_cases m) as [Hu|(i & o & Hu)]; rewrite Hu in H; cbn in H;
      [done|]. destruct H as [H|[]]. discriminate.
  - destruct (result_pass_cases m) as [[Hr _]|(r & Hr & _)]; rewrite Hr in H;
      cbn in H; [done|]. destruct H as [H|[]]. discriminate.
Qed.

(** C10. For an assistant message with content blocks the block list is
    scanned twice: the events are the text events of all blocks, then the
    tool events of all blocks, then usage and result.  So every text event
    of the message stands before every tool event of the message, wherever
    their blocks are in the list; and within each scan the events come from
    blocks of strictly increasing index. *)
Theorem text_events_precede_tool_events (m : RawMessage) (blocks : list Block) :
  assistant_content m = Some blocks ->
  on_message m =
    flat_map text_body blocks ++ flat_map tool_body blocks
      ++ usage_pass m ++ result_pass m
  /\ Forall is_text (flat_map text_body blocks)
  /\ Forall is_tool (flat_map tool_body blocks)
  /\ (forall (i j : nat) (t : string) (n : option string),
        on_message m !! i = Some (EvText t) ->
        on_message m !! j = Some (EvTool n) -> (i < j)%nat)
  /\ map snd (traced_pass text_body 0 blocks) = flat_map text_body blocks
  /\ StronglySorted lt (map fst (traced_pass text_body 0 blocks))
  /\ map snd (traced_pass tool_body 0 blocks) = flat_map tool_body blocks
  /\ StronglySorted lt (map fst (traced_pass tool_body 0 blocks)).
Proof.
  intros Hc. pose proof (on_message_assistant m blocks Hc) as Hm.
  split; [exact Hm|]. split; [apply text_pass_all_text|].
  split; [apply tool_pass_all_tool|].
  split; [|split; [apply traced_pass_events|split;
    [apply traced_pass_sorted, text_body_length|split;
      [apply traced_pass_events|apply traced_pass_sorted, tool_body_length]]]].
  intros i j t n Hi Hj. rewrite Hm in Hi, Hj.
  set (texts := flat_map text_body blocks) in *.
  assert (Hit : (i < length texts)%nat).
  { destruct (decide (i < length texts)%nat) as [|Hge]; [done|]. exfalso.
    rewrite lookup_app_r in Hi by lia.
    apply (after_text_pass_no_text m t). unfold tool_pass. rewrite Hc.
    apply list_elem_of_In. by eapply list_elem_of_lookup_2. }
  assert (Hjt : (length texts <= j)%nat).
  { destruct (decide (length texts <= j)%nat) as [|Hlt]; [done|]. exfalso.
    rewrite lookup_app_l in Hj by lia.
    assert (Hin : In (EvTool n) texts).
    { apply list_elem_of_In. by eapply list_elem_of_lookup_2. }
    destruct (Forall_In_elim _ _ _ (text_pass_all_text blocks) Hin) as [x Hx].
    discriminate. }
  lia.
Qed.

Lemma text_events_precede_tool_events_witness :
  on_message (assistant_message [tool_use_block "click"; text_block "Hello"] None)
  = [EvText "Hello"; EvTool (Some "click")].
Proof.
  exact (proj1 (text_events_precede_tool_events
                  (assistant_message [tool_use_block "click"; text_block "Hello"] None)
                  [tool_use_block "click"; text_block "Hello"] eq_refl)).
Defined.

(** The two scans yield what one scan in block order yields, up to order. *)
Lemma content_events_permutation (blocks : list Block) :
  Permutation (content_events blocks) (block_order_events blocks).
Proof.
  unfold content_events, block_order_events.
  induction blocks as [|b rest IH]; cbn; [constructor|].
  rewrite <- IH, <- !app_assoc. apply Permutation_app_head.
  apply Permutation_app_swap_app.
Qed.

Lemma no_text_blocks (blocks : list Block) :
  forallb (fun b => match text_body b with [] => true | _ => false end) blocks
    = true ->
  flat_map text_body blocks = []
  /\ block_order_events blocks = flat_map tool_body blocks.
Proof.
  unfold block_order_events. induction blocks as [|b rest IH]; cbn; [done|].
  intros H. apply andb_prop in H as [Hb Hrest].
  destruct (IH Hrest) as [IH1 IH2]. rewrite IH1, IH2.
  destruct (text_body b); [done|discriminate].
Qed.

(** With no [tool_use] block before a text-yielding block, the two scans
    yield in block order. *)
Lemma content_events_in_block_order (blocks : list Block) :
  text_before_tools blocks = true ->
  content_events blocks = block_order_events blocks.
Proof.
  unfold content_events, block_order_events.
  induction blocks as [|b rest IH]; cbn; [done|].
  destruct (tool_body b) as [|ev tl] eqn:Htool.
  - intros H. rewrite app_nil_r, <- app_assoc. f_equal. by apply IH.
  - intros H. apply andb_prop in H as [Hnone _].
    rewrite (tool_body_excludes_text b) by (rewrite Htool; discriminate).
    destruct (no_text_blocks rest Hnone) as [H1 H2].
    unfold block_order_events in H2. rewrite H1, H2. reflexivity.
Qed.

Lemma traced_content_events_origin (blocks : list Block) (j : nat) (ev : Event) :
  In (j, ev) (traced_content_events blocks) ->
  exists b, blocks !! j = Some b /\ In ev (text_body b ++ tool_body b).
Proof.
  unfold traced_content_events. rewrite in_app_iff.
  intros [H|H]; apply traced_pass_origin in H as (_ & b & Hb & Hev);
    rewrite Nat.sub_0_r in Hb; exists b; (split; [exact Hb|]);
    apply in_app_iff; auto.
Qed.

(** C2, as stated, fails on a message whose [tool_use] block stands before
    its text block: the text event is yielded first although its block is
    second, so the events are not in the order of their blocks. *)
Lemma block_order_counterexample :
  let blocks := [tool_use_block "click"; text_block "Hello"] in
  let m := assistant_message blocks None in
  assistant_content m = Some blocks
  /\ on_message m = [EvText "Hello"; EvTool (Some "click")]
  /\ traced_content_events blocks =
       [(1%nat, EvText "Hello"); (0%nat, EvTool (Some "click"))]
  /\ block_order_events blocks = [EvTool (Some "click"); EvText "Hello"]
  /\ on_message m <> block_order_events blocks
  /\ ~ Sorted le (map fst (traced_content_events blocks)).
Proof.
  cbn. repeat split; [discriminate|].
  intros H. apply Sorted_inv in H as [_ H]. inversion H; subst. lia.
Qed.

(** C2, amended.  For an assistant message with content blocks, both loops
    inspect every block: the events are those of the text check and of the
    tool check of each block, every event coming from a block of the list,
    with the text events of all blocks (in block order) before the tool
    events of all blocks (in block order).  They are in the order of their
    blocks whenever no [tool_use] block stands before a text-yielding block,
    as for a text block "Hello" followed by a [tool_use] block "click". *)
Theorem content_events_text_then_tools (m : RawMessage) (blocks : list Block) :
  assistant_content m = Some blocks ->
  text_pass m ++ tool_pass m = content_events blocks
  /\ on_message m = content_events blocks ++ usage_pass m ++ result_pass m
  /\ Permutation (content_events blocks) (block_order_events blocks)
  /\ map snd (traced_content_events blocks) = content_events blocks
  /\ (forall (j : nat) (ev : Event),
        In (j, ev) (traced_content_events blocks) ->
        exists b, blocks !! j = Some b /\ In ev (text_body b ++ tool_body b))
  /\ StronglySorted lt (map fst (traced_pass text_body 0 blocks))
  /\ StronglySorted lt (map fst (traced_pass tool_body 0 blocks))
  /\ (text_before_tools blocks = true ->
        content_events blocks = block_order_events blocks)
  /\ (blocks = [text_block "Hello"; tool_use_block "click"] ->
        text_pass m ++ tool_pass m = [EvText "Hello"; EvTool (Some "click")]).
Proof.
  intros Hc. unfold text_pass, tool_pass. rewrite Hc.
  split; [reflexivity|].
  split; [rewrite (on_message_assistant m blocks Hc); unfold content_events;
          by rewrite <- app_assoc|].
  split; [apply content_events_permutation|].
  split; [unfold traced_content_events, content_events;
          by rewrite map_app, !traced_pass_events|].
  split; [apply traced_content_events_origin|].
  split; [apply traced_pass_sorted, text_body_length|].
  split; [apply traced_pass_sorted, tool_body_length|].
  split; [apply content_events_in_block_order|].
  intros ->. reflexivity.
Qed.

Lemma content_events_text_then_tools_witness :
  let blocks := [text_block "Hello"; tool_use_block "click"] in
  let m := assistant_message blocks None in
  on_message m = [EvText "Hello"; EvTool (Some "click")]
  /\ content_events blocks = block_order_events blocks.
Proof.
  intros blocks m.
  pose proof (content_events_text_then_tools m blocks eq_refl) as H.
  split.
  - exact (proj1 (proj2 H)).
  - apply (proj1 (proj2 (proj2 (proj2 (proj2 (proj2 (proj2 (proj2 H)))))))).
    reflexivity.
Defined.

(** * Further properties of the configuration *)

Lemma isContainer_agree (env1 env2 : Env) :
  env1 !! "CHROME_PATH" = env2 !! "CHROME_PATH" ->
  isContainer env1 = isContainer env2.
Proof. unfold isContainer. by intros ->. Qed.

Lemma containerArgs_not_base (flag : string) :
  In flag containerArgs -> ~ In flag baseArgs.
Proof.
  cbn. intros [<-|[<-|[<-|[<-|[<-|[]]]]]] H;
    repeat (destruct H as [H|H]; [discriminate|]); exact H.
Qed.

(** A container argument is among the launch arguments exactly in the
    container branch. *)
Lemma container_flag_iff (env : Env) (flag : string) :
  In flag containerArgs ->
  (In flag (buildChromeDevToolsArgs env) <->
   env !! "CHROME_PATH" = Some "/usr/bin/chromium").
Proof.
  intros Hflag. rewrite <- isContainer_true. unfold buildChromeDevToolsArgs.
  destruct (isContainer env).
  - split; [done|]. intros _. apply in_app_iff. by right.
  - split; [|done]. intros Hin. by apply containerArgs_not_base in Hflag.
Qed.

(** X1. Whatever the environment, the launch arguments start with the
    baseline arguments (so Chrome always runs headless and isolated) and have
    no repeated argument.  Each of the five container arguments, the sandbox
    switches among them, is present exactly when [CHROME_PATH] is
    ["/usr/bin/chromium"]. *)
Theorem sandbox_flags_iff_container (env : Env) :
  (exists extra, buildChromeDevToolsArgs env = baseArgs ++ extra)
  /\ In "--headless" (buildChromeDevToolsArgs env)
  /\ In "--isolated" (buildChromeDevToolsArgs env)
  /\ NoDup (buildChromeDevToolsArgs env)
  /\ (forall flag : string, In flag containerArgs ->
        (In flag (buildChromeDevToolsArgs env) <->
         env !! "CHROME_PATH" = Some "/usr/bin/chromium")).
Proof.
  split; [|split; [|split; [|split; [|apply container_flag_iff]]]];
    unfold buildChromeDevToolsArgs; destruct (isContainer env).
  - by exists containerArgs.
  - exists []. by rewrite app_nil_r.
  - cbn; tauto.
  - cbn; tauto.
  - cbn; tauto.
  - cbn; tauto.
  - apply (bool_decide_unpack _); vm_compute; reflexivity.
  - apply (bool_decide_unpack _); vm_compute; reflexivity.
Qed.

Lemma sandbox_flags_iff_container_witness :
  In "--chrome-arg=--no-sandbox"
    (buildChromeDevToolsArgs {[ "CHROME_PATH" := "/usr/bin/chromium" ]})
  /\ ~ In "--chrome-arg=--no-sandbox"
        (buildChromeDevToolsArgs {[ "CHROME_PATH" := "/usr/bin/chromium-browser" ]}).
Proof.
  split.
  - apply (proj2 (proj2 (proj2 (proj2 (sandbox_flags_iff_container
             {[ "CHROME_PATH" := "/usr/bin/chromium" ]})))) _).
    + cbn. tauto.
    + vm_compute. reflexivity.
  - intros Hin.
    apply (proj2 (proj2 (proj2 (proj2 (sandbox_flags_iff_container
             {[ "CHROME_PATH" := "/usr/bin/chromium-browser" ]})))) _) in Hin.
    + vm_compute in Hin. discriminate.
    + cbn. tauto.
Defined.

(** X2. The launch arguments read one variable only: setting or unsetting
    any variable other than [CHROME_PATH] leaves them unchanged, and two
    environments that agree on [CHROME_PATH] give the same arguments. *)
Theorem launch_args_read_CHROME_PATH_only (env : Env) (k v : string) :
  k <> "CHROME_PATH" ->
  buildChromeDevToolsArgs (<[k := v]> env) = buildChromeDevToolsArgs env
  /\ buildChromeDevToolsArgs (delete k env) = buildChromeDevToolsArgs env
  /\ (forall env' : Env, env' !! "CHROME_PATH" = env !! "CHROME_PATH" ->
        buildChromeDevToolsArgs env' = buildChromeDevToolsArgs env).
Proof.
  intros Hk. unfold buildChromeDevToolsArgs. split; [|split].
  - rewrite (isContainer_agree (<[k := v]> env) env); [done|].
    by rewrite lookup_insert_ne.
  - rewrite (isContainer_agree (delete k env) env); [done|].
    by rewrite lookup_delete_ne.
  - intros env' H. by rewrite (isContainer_agree env' env H).
Qed.

Lemma launch_args_read_CHROME_PATH_only_witness :
  buildChromeDevToolsArgs
    (<["HOME" := "/root"]> {[ "CHROME_PATH" := "/usr/bin/chromium" ]})
  = buildChromeDevToolsArgs {[ "CHROME_PATH" := "/usr/bin/chromium" ]}.
Proof.
  apply (proj1 (launch_args_read_CHROME_PATH_only
                  {[ "CHROME_PATH" := "/usr/bin/chromium" ]} "HOME" "/root"
                  ltac:(discriminate))).
Defined.

(** X3. The server configuration is built once, from the environment at
    module load: the arguments that [getOptions(true)] attaches follow
    [CHROME_PATH] as it was then, whatever the environment is when
    [getOptions] is called, while the [env] option forwards the environment
    of the call.  A [CHROME_PATH] set to the container value after the load
    is forwarded to the engine but adds no container argument. *)
Theorem launch_spec_fixed_at_load (sp : string) (load_env call_env : Env) :
  (forall env' : Env,
     mcpServers (getOptions sp load_env env' true) =
     mcpServers (getOptions sp load_env call_env true))
  /\ (forall cfg : McpServerConfig,
        mcpServers (getOptions sp load_env call_env true)
          ≫= (fun servers => servers !! "chrome-devtools") = Some cfg ->
        (In "--chrome-arg=--no-sandbox" (args cfg) <->
         load_env !! "CHROME_PATH" = Some "/usr/bin/chromium"))
  /\ (forall k : string,
        env (getOptions sp load_env call_env true) !! k = call_env !! k)
  /\ (load_env !! "CHROME_PATH" = None ->
      call_env !! "CHROME_PATH" = Some "/usr/bin/chromium" ->
      mcpServers (getOptions sp load_env call_env true) =
        Some {[ "chrome-devtools" :=
                  {| mcp_type := "stdio"; command := "npx"; args := baseArgs |} ]}).
Proof.
  split; [reflexivity|]. split; [|split; [reflexivity|]].
  - intros cfg Hcfg. cbn in Hcfg. rewrite lookup_singleton_eq in Hcfg.
    inversion Hcfg; subst. cbn [args CHROME_DEVTOOLS_MCP_CONFIG].
    apply container_flag_iff. cbn. tauto.
  - intros Hload _. cbn. unfold CHROME_DEVTOOLS_MCP_CONFIG, buildChromeDevToolsArgs.
    assert (Hf : isContainer load_env = false).
    { apply isContainer_false. rewrite Hload. discriminate. }
    by rewrite Hf.
Qed.

Lemma launch_spec_fixed_at_load_witness :
  mcpServers (getOptions "" ∅ {[ "CHROME_PATH" := "/usr/bin/chromium" ]} true) =
    Some {[ "chrome-devtools" :=
              {| mcp_type := "stdio"; command := "npx"; args := baseArgs |} ]}.
Proof.
  apply (proj2 (proj2 (proj2 (launch_spec_fixed_at_load ""
                                ∅ {[ "CHROME_PATH" := "/usr/bin/chromium" ]})))).
  - vm_compute. reflexivity.
  - vm_compute. reflexivity.
Defined.

(** * Further properties of the events of one message *)

Lemma assistant_content_Some (m : RawMessage) (blocks : list Block) :
  assistant_content m = Some blocks <->
  msg_type m = "assistant"
  /\ exists inner, message m = Some inner /\ content inner = Some blocks.
Proof.
  unfold assistant_content.
  destruct (String.eqb_spec (msg_type m) "assistant") as [Ht|Ht].
  - destruct (message m) as [inner|].
    + split; [intros H; split; [done|]; by exists inner|].
      intros [_ (inner' & Hi & Hc)]. by inversion Hi; subst.
    + split; [done|]. by intros [_ (inner' & Hi & _)].
  - split; [done|]. by intros [H _].
Qed.

Lemma in_text_scan (blocks : list Block) (ev : Event) :
  In ev (flat_map text_body blocks) <->
  exists b t, In b blocks /\ ev = EvText t
    /\ block_type b = "text" /\ block_text b = Some t /\ t <> "".
Proof.
  rewrite in_flat_map. split.
  - intros (b & Hb & Hev). exists b.
    destruct (text_body_cases b) as [H0|(t & H1 & Hty & Htx & Hne)].
    + rewrite H0 in Hev. destruct Hev.
    + rewrite H1 in Hev. destruct Hev as [<-|[]]. by exists t.
  - intros (b & t & Hb & -> & Hty & Htx & Hne). exists b. split; [exact Hb|].
    unfold text_body. rewrite Hty, Htx. destruct t; [done|]. cbn. by left.
Qed.

Lemma in_tool_scan (blocks : list Block) (ev : Event) :
  In ev (flat_map tool_body blocks) <->
  exists b, In b blocks /\ ev = EvTool (block_name b) /\ block_type b = "tool_use".
Proof.
  rewrite in_flat_map. split.
  - intros (b & Hb & Hev). exists b.
    destruct (tool_body_cases b) as [H0|[H1 Hty]].
    + rewrite H0 in Hev. destruct Hev.
    + rewrite H1 in Hev. destruct Hev as [<-|[]]. by repeat split.
  - intros (b & Hb & -> & Hty). exists b. split; [exact Hb|].
    unfold tool_body. rewrite Hty. cbn. by left.
Qed.

(** The rank of the events of each pass. *)
Lemma text_pass_rank (m : RawMessage) :
  Forall (fun ev => event_rank ev = 0%nat) (text_pass m).
Proof.
  eapply Forall_impl; [apply text_pass_spec|]. by intros ev [t ->].
Qed.

Lemma tool_pass_rank (m : RawMessage) :
  Forall (fun ev => event_rank ev = 1%nat) (tool_pass m).
Proof.
  eapply Forall_impl; [apply tool_pass_spec|]. by intros ev [n ->].
Qed.

Lemma usage_pass_rank (m : RawMessage) :
  Forall (fun ev => event_rank ev = 2%nat) (usage_pass m).
Proof.
  destruct (usage_pass_cases m) as [->|(i & o & ->)]; repeat constructor.
Qed.

Lemma result_pass_rank (m : RawMessage) :
  Forall (fun ev => event_rank ev = 3%nat) (result_pass m).
Proof.
  destruct (result_pass_cases m) as [[-> _]|(r & -> & _)]; repeat constructor.
Qed.

Lemma rank_excludes (r : nat) (l : list Event) (ev : Event) :
  Forall (fun ev => event_rank ev = r) l -> event_rank ev <> r -> ~ In ev l.
Proof.
  intros Hall Hne Hin. apply Hne. exact (Forall_In_elim _ _ _ Hall Hin).
Qed.

(** X4. A text event is among the events of a message exactly when the
    message has type ["assistant"], its content has a block of type ["text"]
    and that block's text is this non-empty string.  No text event is ever
    empty, and a message of another type yields none, whatever its content. *)
Theorem text_event_iff (m : RawMessage) (t : string) :
  In (EvText t) (on_message m) <->
  msg_type m = "assistant"
  /\ exists inner blocks b,
       message m = Some inner /\ content inner = Some blocks /\ In b blocks
       /\ block_type b = "text" /\ block_text b = Some t /\ t <> "".
Proof.
  rewrite in_on_message. split.
  - intros [H|[H|[H|H]]].
    + unfold text_pass in H. destruct (assistant_content m) as [blocks|] eqn:Hc;
        [|done]. apply assistant_content_Some in Hc as [Hty (inner & Hi & Hc)].
      apply in_text_scan in H as (b & t' & Hb & Heq & Hbt & Htx & Hne).
      inversion Heq; subst t'. split; [exact Hty|]. by exists inner, blocks, b.
    + by apply (rank_excludes _ _ _ (tool_pass_rank m)) in H.
    + by apply (rank_excludes _ _ _ (usage_pass_rank m)) in H.
    + by apply (rank_excludes _ _ _ (result_pass_rank m)) in H.
  - intros [Hty (inner & blocks & b & Hi & Hc & Hb & Hbt & Htx & Hne)].
    left. unfold text_pass.
    rewrite (proj2 (assistant_content_Some m blocks)) by eauto.
    apply in_text_scan. by exists b, t.
Qed.

Lemma text_event_iff_witness :
  In (EvText "Hello")
    (on_message (assistant_message [tool_use_block "click"; text_block "Hello"] None))
  /\ ~ In (EvText "") (on_message (assistant_message [text_block ""] None)).
Proof.
  split.
  - apply (proj2 (text_event_iff _ "Hello")). split; [reflexivity|].
    exists {| content := Some [tool_use_block "click"; text_block "Hello"];
              usage := None |},
      [tool_use_block "click"; text_block "Hello"], (text_block "Hello").
    repeat split; [cbn; tauto|discriminate].
  - intros H. apply (proj1 (text_event_iff _ "")) in H.
    destruct H as [_ (inner & blocks & b & _ & _ & _ & _ & _ & Hne)]. by apply Hne.
Defined.

(** X5. A tool event is among the events of a message exactly when the
    message has type ["assistant"] and its content has a block of type
    ["tool_use"] whose [name] is the event's.  The name is copied unchecked:
    a [tool_use] block without a name still yields a tool event, with no
    name. *)
Theorem tool_event_iff (m : RawMessage) (n : option string) :
  In (EvTool n) (on_message m) <->
  msg_type m = "assistant"
  /\ exists inner blocks b,
       message m = Some inner /\ content inner = Some blocks /\ In b blocks
       /\ block_type b = "tool_use" /\ block_name b = n.
Proof.
  rewrite in_on_message. split.
  - intros [H|[H|[H|H]]].
    + by apply (rank_excludes _ _ _ (text_pass_rank m)) in H.
    + unfold tool_pass in H. destruct (assistant_content m) as [blocks|] eqn:Hc;
        [|done]. apply assistant_content_Some in Hc as [Hty (inner & Hi & Hc)].
      apply in_tool_scan in H as (b & Hb & Heq & Hbt).
      inversion Heq; subst n. split; [exact Hty|]. by exists inner, blocks, b.
    + by apply (rank_excludes _ _ _ (usage_pass_rank m)) in H.
    + by apply (rank_excludes _ _ _ (result_pass_rank m)) in H.
  - intros [Hty (inner & blocks & b & Hi & Hc & Hb & Hbt & Hn)].
    right; left. unfold tool_pass.
    rewrite (proj2 (assistant_content_Some m blocks)) by eauto.
    apply in_tool_scan. exists b. by rewrite Hn.
Qed.

Lemma tool_event_iff_witness :
  In (EvTool None)
    (on_message
       (assistant_message
          [ {| block_type := "tool_use"; block_text := None; block_name := None |} ]
          None)).
Proof.
  apply (proj2 (tool_event_iff _ None)). split; [reflexivity|].
  exists {| content :=
              Some [ {| block_type := "tool_use"; block_text := None;
                        block_name := None |} ];
            usage := None |},
    [ {| block_type := "tool_use"; block_text := None; block_name := None |} ],
    {| block_type := "tool_use"; block_text := None; block_name := None |}.
  repeat split. cbn. tauto.
Defined.

(** A block passes at most one of the two checks. *)
Lemma block_yields_at_most_once (b : Block) :
  (length (text_body b) + length (tool_body b) <= 1)%nat.
Proof.
  destruct (tool_body_cases b) as [H0|[H1 Hty]].
  - rewrite H0. pose proof (text_body_length b). cbn. lia.
  - rewrite (tool_body_excludes_text b) by (rewrite H1; discriminate).
    rewrite H1. cbn. lia.
Qed.

Lemma content_events_length (blocks : list Block) :
  (length (content_events blocks) <= length blocks)%nat.
Proof.
  unfold content_events. rewrite length_app.
  induction blocks as [|b rest IH]; cbn; [lia|].
  rewrite !length_app. pose proof (block_yields_at_most_once b). lia.
Qed.

(** X6. A message yields at most one event per content block, one usage
    event and one result event: a block never yields both a text and a tool
    event, and a message that is not an assistant turn with content yields
    two events at most. *)
Theorem on_message_length_bound (m : RawMessage) :
  (length (on_message m) <= length (default [] (assistant_content m)) + 2)%nat
  /\ (length (usage_pass m) <= 1)%nat
  /\ (length (result_pass m) <= 1)%nat
  /\ (forall b : Block, (length (text_body b ++ tool_body b) <= 1)%nat).
Proof.
  assert (Hu : (length (usage_pass m) <= 1)%nat).
  { destruct (usage_pass_cases m) as [->|(i & o & ->)]; cbn; lia. }
  assert (Hr : (length (result_pass m) <= 1)%nat).
  { destruct (result_pass_cases m) as [[-> _]|(r & -> & _)]; cbn; lia. }
  split; [|split; [exact Hu|split; [exact Hr|]]].
  - unfold on_message. rewrite !length_app. unfold text_pass, tool_pass.
    destruct (assistant_content m) as [blocks|]; simpl.
    + pose proof (content_events_length blocks) as Hc.
      unfold content_events in Hc. rewrite length_app in Hc. lia.
    + lia.
  - intros b. rewrite length_app. apply block_yields_at_most_once.
Qed.

Lemma rank_segment_sorted (r : nat) (l1 l2 : list Event) :
  Forall (fun ev => event_rank ev = r) l1 ->
  Forall (fun ev => (r <= event_rank ev)%nat) l2 ->
  StronglySorted le (map event_rank l2) ->
  StronglySorted le (map event_rank (l1 ++ l2)).
Proof.
  intros H1 H2 Hs. induction l1 as [|ev l1 IH]; cbn; [exact Hs|].
  apply Forall_cons in H1 as [Hev H1].
  constructor; [by apply IH|]. rewrite Hev. apply Forall_forall. intros k Hk.
  apply list_elem_of_In, in_map_iff in Hk as (ev' & <- & Hin).
  apply in_app_iff in Hin as [Hin|Hin].
  - rewrite (Forall_In_elim _ _ _ H1 Hin). lia.
  - exact (Forall_In_elim _ _ _ H2 Hin).
Qed.

Lemma rank_at_least (r r' : nat) (l : list Event) :
  (r <= r')%nat ->
  Forall (fun ev => event_rank ev = r') l ->
  Forall (fun ev => (r <= event_rank ev)%nat) l.
Proof.
  intros Hle H. eapply Forall_impl; [exact H|]. cbn. intros ev ->. exact Hle.
Qed.

(** X7. Within one message the events come in the order of the four checks:
    text events, then tool events, then the usage event, then the result
    event; no event of an earlier kind follows one of a later kind, and no
    message yields [EvDone]. *)
Theorem on_message_kinds_in_order (m : RawMessage) :
  StronglySorted le (map event_rank (on_message m))
  /\ Forall (fun ev => (event_rank ev <= 3)%nat) (on_message m).
Proof.
  split.
  - unfold on_message.
    apply (rank_segment_sorted 0); [apply text_pass_rank| |].
    { apply Forall_forall. intros ev _. lia. }
    apply (rank_segment_sorted 1); [apply tool_pass_rank| |].
    { apply Forall_app. split;
        [apply (rank_at_least _ 2), usage_pass_rank
        |apply (rank_at_least _ 3), result_pass_rank]; lia. }
    apply (rank_segment_sorted 2);
      [apply usage_pass_rank
      |apply (rank_at_least _ 3); [lia|apply result_pass_rank]|].
    rewrite <- (app_nil_r (result_pass m)).
    apply (rank_segment_sorted 3); [apply result_pass_rank|constructor..].
  - unfold on_message. rewrite !Forall_app. repeat split;
      (eapply Forall_impl;
       [first [apply text_pass_rank|apply tool_pass_rank
              |apply usage_pass_rank|apply result_pass_rank]|]);
      cbn; intros ev ->; lia.
Qed.

(** X8. The type of a message matters to the block loops only: a message
    whose type is not ["assistant"] yields no text and no tool event even
    when it has content blocks, while its usage snapshot and its result text
    are reported exactly as for an assistant message. *)
Theorem non_assistant_message_events (m : RawMessage) :
  msg_type m <> "assistant" ->
  on_message m = usage_pass m ++ result_pass m
  /\ (forall t, ~ In (EvText t) (on_message m))
  /\ (forall n, ~ In (EvTool n) (on_message m))
  /\ (forall ty : string,
        let m' := {| msg_type := ty; message := message m; result := result m |} in
        usage_pass m' = usage_pass m /\ result_pass m' = result_pass m).
Proof.
  intros Hty.
  assert (Hc : assistant_content m = None).
  { unfold assistant_content.
    by destruct (String.eqb_spec (msg_type m) "assistant"). }
  assert (Hm : on_message m = usage_pass m ++ result_pass m).
  { unfold on_message, text_pass, tool_pass. by rewrite Hc. }
  split; [exact Hm|]. split; [|split; [|by intros ty]].
  - intros t. rewrite Hm, in_app_iff. intros [H|H].
    + by apply (rank_excludes _ _ _ (usage_pass_rank m)) in H.
    + by apply (rank_excludes _ _ _ (result_pass_rank m)) in H.
  - intros n. rewrite Hm, in_app_iff. intros [H|H].
    + by apply (rank_excludes _ _ _ (usage_pass_rank m)) in H.
    + by apply (rank_excludes _ _ _ (result_pass_rank m)) in H.
Qed.

Lemma non_assistant_message_events_witness :
  on_message
    {| msg_type := "user";
       message := Some {| content := Some [text_block "Hello"; tool_use_block "click"];
                          usage := Some {| input_tokens := Some 3;
                                           output_tokens := None |} |};
       result := None |}
  = [EvUsage 3 0].
Proof.
  exact (proj1 (non_assistant_message_events
    {| msg_type := "user";
       message := Some {| content := Some [text_block "Hello"; tool_use_block "click"];
                          usage := Some {| input_tokens := Some 3;
                                           output_tokens := None |} |};
       result := None |}
    ltac:(discriminate))).
Defined.

Lemma flat_map_nil_iff {A B : Type} (f : A -> list B) (l : list A) :
  flat_map f l = [] <-> forall x, In x l -> f x = [].
Proof.
  induction l as [|a l IH]; cbn; [by split|]. split.
  - intros H. apply app_eq_nil in H as [Ha Hl]. intros x [<-|Hx]; [done|].
    by apply IH.
  - intros H. rewrite (H a) by by left. cbn. apply IH. intros x Hx. apply H.
    by right.
Qed.

Lemma text_body_nil_iff (b : Block) :
  text_body b = [] <->
  (block_type b = "text" -> block_text b = None \/ block_text b = Some "").
Proof.
  unfold text_body. destruct (String.eqb_spec (block_type b) "text") as [Ht|Ht].
  - destruct (block_text b) as [[|a t]|]; cbn.
    + split; auto.
    + split; [discriminate|]. intros H. by destruct (H Ht).
    + split; auto.
  - split; [by intros _ H|done].
Qed.

Lemma tool_body_nil_iff (b : Block) :
  tool_body b = [] <-> block_type b <> "tool_use".
Proof.
  unfold tool_body. destruct (String.eqb_spec (block_type b) "tool_use") as [Ht|Ht].
  - split; [discriminate|done].
  - by split.
Qed.

(** X9. A message yields no event exactly when none of the four checks
    fires: it has no usage snapshot, no non-empty result and, if it is an
    assistant turn with content, no [tool_use] block and no text block with
    a non-empty text.  So an assistant turn made of other block types, or of
    empty text blocks, is skipped like an unknown message. *)
Theorem on_message_nil_iff (m : RawMessage) :
  on_message m = [] <->
  (forall blocks b, assistant_content m = Some blocks -> In b blocks ->
     block_type b <> "tool_use"
     /\ (block_type b = "text" -> block_text b = None \/ block_text b = Some ""))
  /\ (forall inner, message m = Some inner -> usage inner = None)
  /\ (result m = None \/ result m = Some "").
Proof.
  rewrite <- message_usage_None. unfold on_message. split.
  - intros H. apply app_eq_nil in H as [Ht H]. apply app_eq_nil in H as [Hl H].
    apply app_eq_nil in H as [Hu Hr]. split; [|split].
    + intros blocks b Hc Hb. unfold text_pass, tool_pass in Ht, Hl.
      rewrite Hc in Ht, Hl. split.
      * apply tool_body_nil_iff. by apply (proj1 (flat_map_nil_iff _ _) Hl).
      * apply text_body_nil_iff. by apply (proj1 (flat_map_nil_iff _ _) Ht).
    + unfold usage_pass in Hu. by destruct (message_usage m).
    + destruct (result_pass_cases m) as [[_ H]|(r & H & _)]; [exact H|].
      by rewrite H in Hr.
  - intros (Hb & Hu & Hr). unfold text_pass, tool_pass, usage_pass, result_pass.
    rewrite Hu. destruct (assistant_content m) as [blocks|].
    + rewrite (proj2 (flat_map_nil_iff text_body blocks)),
        (proj2 (flat_map_nil_iff tool_body blocks)).
      * by destruct Hr as [-> | ->].
      * intros b Hin. apply tool_body_nil_iff. by apply (Hb blocks b).
      * intros b Hin. apply text_body_nil_iff. by apply (Hb blocks b).
    + by destruct Hr as [-> | ->].
Qed.

Lemma on_message_nil_iff_witness :
  on_message
    (assistant_message
       [ {| block_type := "thinking"; block_text := Some "hm"; block_name := None |};
         text_block "" ] None)
  = [].
Proof.
  apply (proj2 (on_message_nil_iff _)). split; [|split].
  - intros blocks b Hc Hb. cbn in Hc. inversion Hc; subst blocks. cbn in Hb.
    destruct Hb as [<-|[<-|[]]]; cbn.
    + split; [discriminate|discriminate].
    + split; [discriminate|]. intros _. by right.
  - intros inner Hi. cbn in Hi. by inversion Hi.
  - left. reflexivity.
Defined.

Lemma filter_rank_nil (f : Event -> bool) (r : nat) (l : list Event) :
  (forall ev, event_rank ev = r -> f ev = false) ->
  Forall (fun ev => event_rank ev = r) l ->
  List.filter f l = [].
Proof.
  intros Hf Hall. induction l as [|ev l IH]; cbn; [done|].
  apply Forall_cons in Hall as [Hev Hall]. rewrite (Hf ev Hev). by apply IH.
Qed.

Lemma usage_pass_option (m : RawMessage) :
  usage_pass m = option_list (usage_event_of m).
Proof. unfold usage_pass, usage_event_of. by destruct (message_usage m). Qed.

Lemma result_pass_option (m : RawMessage) :
  result_pass m = option_list (result_event_of m).
Proof.
  unfold result_pass, result_event_of. destruct (result m) as [r|]; [|done].
  by destruct (truthy r).
Qed.

(** The two event readers agree with the fields they read. *)
Lemma usage_event_of_fields (m : RawMessage) :
  usage_event_of m =
    (inner ← message m; u ← usage inner;
     Some (EvUsage (default 0 (input_tokens u)) (default 0 (output_tokens u)))).
Proof.
  unfold usage_event_of, message_usage. destruct (message m) as [inner|]; [|done].
  cbn. destruct (usage inner) as [u|]; [|done]. cbn.
  by rewrite !or_zero_default.
Qed.

Lemma result_event_of_fields (m : RawMessage) :
  result_event_of m =
    (r ← result m; if decide (r = "") then None else Some (EvResult r)).
Proof.
  unfold result_event_of. destruct (result m) as [r|]; [|done]. cbn.
  by destruct r.
Qed.

Lemma omap_ext_eq {A B : Type} (f g : A -> option B) (l : list A) :
  (forall x, f x = g x) -> omap f l = omap g l.
Proof.
  intros H. induction l as [|x l IH]; cbn; [done|]. by rewrite H, IH.
Qed.

Lemma usage_events_filter (ms : list RawMessage) :
  List.filter is_usageb (flat_map on_message ms) = omap usage_event_of ms.
Proof.
  induction ms as [|m ms IH]; cbn [flat_map omap list_omap]; [done|].
  unfold on_message at 1. rewrite !List.filter_app, IH.
  rewrite (filter_rank_nil is_usageb 0 (text_pass m));
    [|by intros [] | apply text_pass_rank].
  rewrite (filter_rank_nil is_usageb 1 (tool_pass m));
    [|by intros [] | apply tool_pass_rank].
  rewrite (filter_rank_nil is_usageb 3 (result_pass m));
    [|by intros [] | apply result_pass_rank].
  rewrite usage_pass_option. unfold usage_event_of.
  by destruct (message_usage m).
Qed.

Lemma result_events_filter (ms : list RawMessage) :
  List.filter is_resultb (flat_map on_message ms) = omap result_event_of ms.
Proof.
  induction ms as [|m ms IH]; cbn [flat_map omap list_omap]; [done|].
  unfold on_message at 1. rewrite !List.filter_app, IH.
  rewrite (filter_rank_nil is_resultb 0 (text_pass m));
    [|by intros [] | apply text_pass_rank].
  rewrite (filter_rank_nil is_resultb 1 (tool_pass m));
    [|by intros [] | apply tool_pass_rank].
  rewrite (filter_rank_nil is_resultb 2 (usage_pass m));
    [|by intros [] | apply usage_pass_rank].
  rewrite result_pass_option. destruct (result_event_of m) as [ev|] eqn:He;
    [|done].
  unfold result_event_of in He. destruct (result m) as [r|]; [|done].
  destruct (truthy r); [|done]. by inversion He.
Qed.

(** X10. Over a run of messages, the usage events are those of the messages
    whose [message.message] is present and has a [usage], one each and in
    arrival order, with the counters of that snapshot (0 for an absent one);
    the snapshots are reported as they come, never added up, and a [result]
    key or the type of the message changes nothing.  Likewise the result
    events are those of the messages whose [result] is a non-empty string. *)
Theorem usage_and_result_events_per_message (ms : list RawMessage) :
  List.filter is_usageb (flat_map on_message ms) =
    omap (fun m =>
            inner ← message m; u ← usage inner;
            Some (EvUsage (default 0 (input_tokens u))
                          (default 0 (output_tokens u)))) ms
  /\ List.filter is_resultb (flat_map on_message ms) =
       omap (fun m =>
               r ← result m;
               if decide (r = "") then None else Some (EvResult r)) ms
  /\ length (List.filter is_usageb (flat_map on_message ms)) =
       length (List.filter
                 (fun m => match message m with
                           | Some inner => bool_decide (is_Some (usage inner))
                           | None => false
                           end) ms).
Proof.
  split; [|split].
  - rewrite usage_events_filter. apply omap_ext_eq, usage_event_of_fields.
  - rewrite result_events_filter. apply omap_ext_eq, result_event_of_fields.
  - rewrite usage_events_filter. induction ms as [|m ms IH]; [done|].
    cbn [omap list_omap List.filter]. rewrite usage_event_of_fields.
    destruct (message m) as [inner|]; cbn; [|exact IH].
    destruct (usage inner) as [u|]; cbn.
    + rewrite ?bool_decide_eq_true_2 by by eexists. cbn. by rewrite IH.
    + rewrite ?bool_decide_eq_false_2 by (by intros [u Hu]). exact IH.
Qed.

(** * Further properties of the generator *)

Section GeneratorMore.
Context {E : Type}.
Implicit Types (src : Source E) (ms : list RawMessage).

(** With fuel for some of the yields only, draining gives the first events
    and no completion. *)
Lemma drain_short src : forall (p : list Event) (k : nat),
  (k <= length (p ++ fst (consume src)))%nat ->
  drain k (Running p src) = (take k (p ++ fst (consume src)), None).
Proof.
  induction src as [|e|m rest IH]; intros p; induction p as [|ev p IHp];
    intros k Hk.
  - destruct k as [|[|k]]; cbn in *; [done|done|lia].
  - destruct k as [|k]; [done|]. cbn [drain next].
    rewrite IHp by (cbn in *; lia). done.
  - destruct k as [|k]; cbn in *; [done|lia].
  - destruct k as [|k]; [done|]. cbn [drain next].
    rewrite IHp by (cbn in *; lia). done.
  - rewrite (drain_same_next _ _ _ (next_message m rest)).
    cbn [consume app] in *. destruct (consume rest) as [evs c].
    cbn [fst] in *. by apply IH.
  - destruct k as [|k]; [done|]. cbn [drain next].
    rewrite IHp by (cbn in *; lia). done.
Qed.

(** X11. [EvDone] is the mark of a normal end and of nothing else: for every
    stream, the events contain [EvDone] exactly when the generator returns,
    and then once, as the last event; when the generator throws, no event is
    [EvDone]. *)
Theorem done_iff_returned src :
  (In EvDone (fst (consume src)) <-> snd (consume src) = Returned)
  /\ (snd (consume src) = Returned ->
      exists body, fst (consume src) = body ++ [EvDone] /\ ~ In EvDone body)
  /\ (forall e : E, snd (consume src) = Threw e -> ~ In EvDone (fst (consume src))).
Proof.
  destruct (source_shape src) as [ms [->|[e ->]]]; rewrite consume_stream_of;
    cbn [consume fst snd]; pose proof (flat_map_on_message_no_done ms) as Hnd.
  - split; [|split].
    + split; [done|]. intros _. apply in_app_iff. right. by left.
    + intros _. by exists (flat_map on_message ms).
    + discriminate.
  - rewrite app_nil_r. split; [|split].
    + split; [done|discriminate].
    + discriminate.
    + by intros e' _.
Qed.

(** X12. What has been yielded does not depend on what the stream does
    next: whatever follows the messages [ms] (more messages, the end, a
    fault), the events start with the events of [ms] in arrival order, the
    call of [next] number [i] yields the event number [i] of them, and the
    completion is that of the rest of the stream. *)
Theorem yielded_events_independent_of_rest ms (rest : Source E) :
  consume (stream_of ms rest) =
    (flat_map on_message ms ++ fst (consume rest), snd (consume rest))
  /\ (forall (i : nat) (ev : Event),
        flat_map on_message ms !! i = Some ev ->
        fst (resume i (Running [] (stream_of ms rest))) = Yield ev)
  /\ (forall k : nat, (k <= length (flat_map on_message ms))%nat ->
        drain k (Running [] (stream_of ms rest)) =
          (take k (flat_map on_message ms), None)).
Proof.
  split; [apply consume_stream_of|]. split.
  - intros i ev Hi. apply resume_yields. rewrite consume_stream_of. cbn [fst app].
    by apply lookup_app_l_Some.
  - intros k Hk. rewrite drain_short; rewrite consume_stream_of; cbn [fst app].
    + by rewrite take_app_le.
    + rewrite length_app. lia.
Qed.

(** X13. A caller that stops after [k] calls of [next], with [k] at most
    the number of events, has received the first [k] events and no
    completion: nothing is yielded ahead of its turn. *)
Theorem early_stop_gives_prefix src (k : nat) :
  (k <= length (fst (consume src)))%nat ->
  drain k (Running [] src) = (take k (fst (consume src)), None).
Proof. intros Hk. by apply (drain_short src []). Qed.

(** X14. The generator completes once.  With [n] the number of events of
    the stream, each of the first [n] calls of [next] yields an event, the
    next call returns or is rejected with the stream's fault, and every call
    after that reports completion: a fault is delivered a single time. *)
Theorem generator_completes_once src :
  let n := length (fst (consume src)) in
  (forall i : nat, (i < n)%nat ->
     exists ev, fst (consume src) !! i = Some ev
                /\ fst (resume i (Running [] src)) = Yield ev)
  /\ resume n (Running [] src) = (completion_step (snd (consume src)), Completed)
  /\ (forall i : nat, (n < i)%nat -> resume i (Running [] src) = (Finish, Completed)).
Proof.
  intros n. destruct (resume_consume src []) as [H1 H2]. split; [|split].
  - intros i Hi. destruct (lookup_lt_is_Some_2 (fst (consume src)) i Hi) as [ev Hev].
    exists ev. split; [exact Hev|]. by apply resume_yields.
  - exact H1.
  - exact H2.
Qed.

(** X15. Messages that yield nothing cost the caller nothing: however many
    of them come in a row, one call of [next] passes over all of them and
    answers with what the rest of the stream gives. *)
Theorem silent_run_skipped ms (rest : Source E) :
  Forall (fun m => on_message m = []) ms ->
  next (Running [] (stream_of ms rest)) = next (Running [] rest)
  /\ consume (stream_of ms rest) = consume rest.
Proof.
  intros Hs. induction ms as [|m ms IH]; cbn [stream_of fold_right]; [done|].
  apply Forall_cons in Hs as [Hm Hs]. destruct (IH Hs) as [IH1 IH2].
  fold (stream_of ms rest). split.
  - rewrite next_message, Hm. exact IH1.
  - cbn [consume]. rewrite Hm, IH2. by destruct (consume rest).
Qed.

End GeneratorMore.

Lemma yielded_events_independent_of_rest_witness :
  fst (resume 1 (Running [] (stream_of sample_session (SrcFault "EPIPE"))))
  = Yield (EvTool (Some "click")).
Proof.
  apply (proj1 (proj2 (yielded_events_independent_of_rest sample_session
                         (SrcFault "EPIPE")))).
  reflexivity.
Defined.

Lemma early_stop_gives_prefix_witness :
  drain 2 (Running [] (stream_of sample_session (@SrcEnd unit)))
  = ([EvText "Hello"; EvTool (Some "click")], None).
Proof.
  apply (early_stop_gives_prefix (stream_of sample_session (@SrcEnd unit)) 2).
  cbn. lia.
Defined.

Lemma generator_completes_once_witness :
  resume 5 (Running [] (stream_of sample_session (SrcFault "EPIPE")))
  = (Finish, Completed).
Proof.
  apply (proj2 (proj2 (generator_completes_once
                         (stream_of sample_session (SrcFault "EPIPE"))))).
  cbn. lia.
Defined.

Lemma silent_run_skipped_witness :
  next (Running [] (stream_of [system_message; system_message] (@SrcEnd unit)))
  = (Yield EvDone, YieldedDone).
Proof.
  apply (proj1 (silent_run_skipped [system_message; system_message] (@SrcEnd unit)
                  ltac:(repeat constructor))).
Defined.

Lemma done_iff_returned_witness :
  exists body,
    fst (consume (stream_of sample_session (@SrcEnd unit))) = body ++ [EvDone]
    /\ ~ In EvDone body.
Proof.
  apply (proj1 (proj2 (done_iff_returned
                         (stream_of sample_session (@SrcEnd unit))))).
  reflexivity.
Defined.

(** * When the two scans agree with block order *)

Lemma no_text_blocks_forallb (blocks : list Block) :
  flat_map text_body blocks = [] ->
  forallb (fun b => match text_body b with [] => true | _ => false end) blocks
    = true.
Proof.
  intros H. apply forallb_forall. intros b Hb.
  by rewrite (proj1 (flat_map_nil_iff text_body blocks) H b Hb).
Qed.

Lemma block_order_forces_text_first (blocks : list Block) :
  content_events blocks = block_order_events blocks ->
  text_before_tools blocks = true.
Proof.
  unfold content_events, block_order_events.
  induction blocks as [|b rest IH]; cbn; [done|].
  destruct (tool_body_cases b) as [H0|[H1 _]].
  - rewrite H0. cbn [app]. rewrite app_nil_r, <- app_assoc. intros H.
    apply app_inv_head in H. by apply IH.
  - rewrite (tool_body_excludes_text b) by (rewrite H1; discriminate).
    rewrite H1. cbn [app]. intros H.
    pose proof (text_pass_all_text rest) as Htext.
    destruct (flat_map text_body rest) as [|t texts] eqn:Hrest.
    + cbn [app] in H. inversion H as [Heq].
      rewrite (no_text_blocks_forallb rest Hrest). cbn [andb].
      apply IH. exact Heq.
    + cbn [app] in H. inversion H as [[Ht Heq]].
      apply Forall_cons in Htext as [[x Hx] _]. rewrite Hx in Ht. discriminate.
Qed.

(** X16. The events of the content blocks are in the order of their blocks
    exactly when no [tool_use] block stands before a block that yields text;
    as soon as one does, the two scans move that text in front of it. *)
Theorem block_order_iff_text_first (blocks : list Block) :
  content_events blocks = block_order_events blocks <->
  text_before_tools blocks = true.
Proof.
  split; [apply block_order_forces_text_first|apply content_events_in_block_order].
Qed.

Lemma block_order_iff_text_first_witness :
  content_events [text_block "a"; text_block "b"; tool_use_block "click"]
  = block_order_events [text_block "a"; text_block "b"; tool_use_block "click"]
  /\ text_before_tools [text_block "a"; tool_use_block "click"; text_block "b"]
     = false.
Proof.
  split.
  - apply (proj2 (block_order_iff_text_first _)). reflexivity.
  - apply not_true_is_false. intros H.
    apply (proj2 (block_order_iff_text_first _)) in H. discriminate.
Defined.
